(** * Admission controller and response cache of the product catalog

    A shallow embedding of [src/lib/rateLimit.ts] (the fixed-window request
    counter) and [src/lib/cache.ts] (the TTL cache, its memoizing wrapper and
    the invalidation routine), with the properties the specification states
    about them.

    Conventions of the embedding:
    - JavaScript numbers that hold millisecond timestamps, durations and
      counters are integers of [Z] ([Date.now()] is an integer number of
      milliseconds; fractional or NaN configuration values are outside the
      model, so the only falsy number is [0]);
    - a [Map<string, _>] is a [gmap string _];
    - [Date.now()] is an explicit [now] argument (or the [clock] of the world
      for asynchronous code);
    - module-level mutable objects are threaded explicitly: the rate-limit
      table is one store passed to every limiter, the two cache instances are
      fields of one world record. *)

From Stdlib Require Import ZArith String Ascii List Lia.
From stdpp Require Import gmap strings list fin_maps pretty.

Local Open Scope Z_scope.
Set Warnings "-register-all".

(** ** Numbers and strings as JavaScript sees them *)

(** [Math.ceil(a / b)] for integers [a] and a positive integer [b]. *)
Definition ceil_div (a b : Z) : Z := - ((- a) / b).

(** Template-literal rendering of an integer-valued number. *)
Definition number_to_string (z : Z) : string := pretty z.

(** Code units removed by [String.prototype.trim] that can occur in a header
    value (a byte string): TAB, LF, VT, FF, CR, SPACE and NBSP. *)
Definition is_js_space (c : ascii) : bool :=
  let n := N_of_ascii c in
  ((9 <=? n) && (n <=? 13) || (n =? 32) || (n =? 160))%N.

Fixpoint trim_start (s : string) : string :=
  match s with
  | String c s' => if is_js_space c then trim_start s' else s
  | EmptyString => EmptyString
  end.

Definition trim (s : string) : string :=
  String.rev (trim_start (String.rev (trim_start s))).

(** [s.split(",")[0]]: the part of [s] before its first comma. *)
Fixpoint split_comma_first (s : string) : string :=
  match s with
  | String c s' =>
      if Ascii.eqb c ","%char then EmptyString else String c (split_comma_first s')
  | EmptyString => EmptyString
  end.

(** Truthiness of [string | null]: present and not empty. *)
Definition truthy_string (o : option string) : option string :=
  match o with
  | Some EmptyString => None
  | other => other
  end.

(** ** Errors ([errorHandler.ts]) *)

Record AppError := mkAppError {
  name : string;
  message : string;
  statusCode : Z;
  code : option string
}.

Definition RateLimitError (msg : string) : AppError :=
  {| name := "RateLimitError"; message := msg;
     statusCode := 429; code := Some "RATE_LIMIT_EXCEEDED"%string |}.

(** ** The admission controller ([rateLimit.ts]) *)

Module RateLimit.

Record NextRequest := mkRequest {
  (** header names in lower case, as the code asks for them *)
  headers : gmap string string
}.

Definition headers_get (request : NextRequest) (h : string) : option string :=
  headers request !! h.

Record RateLimitEntry := mkEntry {
  count : Z;
  resetTime : Z
}.

Record RateLimitConfig := mkConfig {
  maxRequests : Z;
  windowMs : Z;
  keyGenerator : option (NextRequest -> string)
}.

(** The module-level [rateLimitStore]: one table for every limiter. *)
Abbreviation Store := (gmap string RateLimitEntry).

Inductive outcome :=
| Returns
| Throws (e : AppError).

Definition getClientIP (request : NextRequest) : string :=
  match truthy_string (headers_get request "x-forwarded-for") with
  | Some forwarded => trim (split_comma_first forwarded)
  | None =>
      match truthy_string (headers_get request "x-real-ip") with
      | Some realIP => realIP
      | None =>
          match truthy_string (headers_get request "cf-connecting-ip") with
          | Some cfConnectingIP => cfConnectingIP
          | None => "unknown"%string
          end
      end
  end.

(** The destructuring default of [createRateLimit]. *)
Definition key_of (config : RateLimitConfig) (request : NextRequest) : string :=
  match keyGenerator config with
  | Some g => g request
  | None => getClientIP request
  end.

Definition limit_message (secs : Z) : string :=
  ("Rate limit exceeded. Try again in " +:+ number_to_string secs +:+ " seconds.")%string.

(** [createRateLimit(config)] applied to a request at time [now].  The entry
    read from the table is the object stored in it, so [entry.count++] is
    visible in the table whether or not the call then throws; the final
    [rateLimitStore.set(key, entry)] stores that same object again. *)
Definition rateLimit (config : RateLimitConfig) (request : NextRequest)
    (now : Z) (store : Store) : outcome * Store :=
  let key := key_of config request in
  let fresh :=
    (Returns, <[key := {| count := 1; resetTime := now + windowMs config |}]> store) in
  match store !! key with
  | None => fresh
  | Some entry =>
      if now >? resetTime entry then fresh
      else
        let entry' := {| count := count entry + 1; resetTime := resetTime entry |} in
        let store' := <[key := entry']> store in
        if count entry' >? maxRequests config then
          let resetTimeSeconds := ceil_div (resetTime entry' - now) 1000 in
          (Throws (RateLimitError (limit_message resetTimeSeconds)), store')
        else (Returns, <[key := entry']> store')
  end.

(** The call finds no usable entry: none at all, or one whose reset
    timestamp lies strictly in the past. *)
Definition opens_window (key : string) (now : Z) (store : Store) : Prop :=
  store !! key = None \/ exists e, store !! key = Some e /\ resetTime e < now.

(** The periodic sweep registered with [setInterval]. *)
Definition sweep (now : Z) (store : Store) : Store :=
  filter (fun kv => ¬ (now > resetTime kv.2)) store.

(** A run of calls through one limiter: each call is a request and the time
    at which it is made. *)
Fixpoint run (config : RateLimitConfig) (calls : list (NextRequest * Z))
    (store : Store) : list outcome * Store :=
  match calls with
  | [] => ([], store)
  | (request, now) :: rest =>
      let '(o, store1) := rateLimit config request now store in
      let '(os, store2) := run config rest store1 in
      (o :: os, store2)
  end.

(** The pre-configured limiters. *)
Definition apiRateLimit : RateLimitConfig :=
  {| maxRequests := 100; windowMs := 15 * 60 * 1000; keyGenerator := None |}.

Definition strictApiRateLimit : RateLimitConfig :=
  {| maxRequests := 10; windowMs := 60 * 1000; keyGenerator := None |}.

Definition botProtectionRateLimit : RateLimitConfig :=
  {| maxRequests := 50; windowMs := 60 * 1000;
     keyGenerator := Some (fun request =>
       let userAgent :=
         match truthy_string (headers_get request "user-agent") with
         | Some ua => ua
         | None => "unknown"%string
         end in
       let ip := getClientIP request in
       (ip +:+ ":" +:+ userAgent)%string) |}.

(** The scenario of the specification: two requests per second for the
    client ["ip1"]. *)
Definition scenario_config : RateLimitConfig :=
  {| maxRequests := 2; windowMs := 1000; keyGenerator := None |}.

Definition scenario_request : NextRequest :=
  mkRequest {[ "x-real-ip"%string := "ip1"%string ]}.

(** A request of another client. *)
Definition other_request : NextRequest :=
  mkRequest {[ "x-forwarded-for"%string := " ip2 , ip1"%string ]}.

(** A request whose address header already holds what the bot limiter
    builds for [scenario_request] with the user agent ["curl"]. *)
Definition colon_request : NextRequest :=
  mkRequest {[ "x-real-ip"%string := "ip1:curl"%string ]}.

Definition curl_request : NextRequest :=
  mkRequest {[ "x-real-ip"%string := "ip1"%string;
               "user-agent"%string := "curl"%string ]}.

End RateLimit.

(** ** The response cache ([cache.ts]) *)

Module Cache.

(** Cached payloads are arbitrary JavaScript values; [null] matters because
    [get] returns it for "absent" and [withCache] tests for it. *)
Inductive jsval :=
| JNull
| JUndefined
| JBool (b : bool)
| JNumber (z : Z)
| JString (s : string)
| JArray (items : list jsval)
| JObject (fields : list (string * jsval)).

(** [v !== null] *)
Definition not_null (v : jsval) : bool :=
  match v with
  | JNull => false
  | _ => true
  end.

Record CacheEntry := mkCacheEntry {
  data : jsval;
  timestamp : Z;
  ttl : Z
}.

Record MemoryCache := mkMemoryCache {
  cache : gmap string CacheEntry;
  defaultTTL : Z
}.

(** [new MemoryCache(defaultTTL)] *)
Definition new_MemoryCache (defaultTTL : Z) : MemoryCache :=
  {| cache := ∅; defaultTTL := defaultTTL |}.

(** [ttl || this.defaultTTL]: an omitted or zero [ttl] takes the default. *)
Definition ttl_or_default (ttl : option Z) (defaultTTL : Z) : Z :=
  match ttl with
  | Some t => if t =? 0 then defaultTTL else t
  | None => defaultTTL
  end.

Definition set (c : MemoryCache) (key : string) (data : jsval)
    (ttl : option Z) (now : Z) : MemoryCache :=
  let entry :=
    {| data := data; timestamp := now; ttl := ttl_or_default ttl (defaultTTL c) |} in
  {| cache := <[key := entry]> (cache c); defaultTTL := defaultTTL c |}.

(** [Date.now() - entry.timestamp > entry.ttl] *)
Definition expired (entry : CacheEntry) (now : Z) : bool :=
  now - timestamp entry >? ttl entry.

Definition evict (c : MemoryCache) (key : string) : MemoryCache :=
  {| cache := base.delete key (cache c); defaultTTL := defaultTTL c |}.

(** [get] returns [null] for "absent". *)
Definition get (c : MemoryCache) (key : string) (now : Z) : jsval * MemoryCache :=
  match cache c !! key with
  | None => (JNull, c)
  | Some entry =>
      if expired entry now then (JNull, evict c key)
      else (data entry, c)
  end.

Definition has (c : MemoryCache) (key : string) (now : Z) : bool * MemoryCache :=
  match cache c !! key with
  | None => (false, c)
  | Some entry =>
      if expired entry now then (false, evict c key)
      else (true, c)
  end.

(** [Map.prototype.delete] reports whether the key was present. *)
Definition delete (c : MemoryCache) (key : string) : bool * MemoryCache :=
  (bool_decide (is_Some (cache c !! key)), evict c key).

Definition clear (c : MemoryCache) : MemoryCache :=
  {| cache := ∅; defaultTTL := defaultTTL c |}.

Definition cleanup (c : MemoryCache) (now : Z) : MemoryCache :=
  {| cache := filter (fun kv => expired kv.2 now = false) (cache c);
     defaultTTL := defaultTTL c |}.

(** The two module-level instances; the class itself is not exported, so
    these are the only caches there are. *)
Record Caches := mkCaches {
  productCache : MemoryCache;
  apiCache : MemoryCache
}.

Definition initial_caches : Caches :=
  {| productCache := new_MemoryCache 300000; apiCache := new_MemoryCache 60000 |}.

(** A reference to one of the two instances. *)
Inductive CacheRef := ProductCacheRef | ApiCacheRef.

Definition deref (r : CacheRef) (cs : Caches) : MemoryCache :=
  match r with
  | ProductCacheRef => productCache cs
  | ApiCacheRef => apiCache cs
  end.

Definition assign (r : CacheRef) (c : MemoryCache) (cs : Caches) : Caches :=
  match r with
  | ProductCacheRef => {| productCache := c; apiCache := apiCache cs |}
  | ApiCacheRef => {| productCache := productCache cs; apiCache := c |}
  end.

(** Cache key generators. *)
Module cacheKeys.
Definition allProducts : string := "products:all".
Definition productById (id : string) : string := "product:" +:+ id.
Definition productsByCategory (category : string) : string :=
  "products:category:" +:+ category.
Definition productsBySearch (query : string) : string :=
  "products:search:" +:+ query.
Definition featuredProducts : string := "products:featured".
End cacheKeys.

(** The list built by [invalidateProductCaches]; [if (productId)] skips an
    omitted and an empty identifier. *)
Definition keysToDelete (productId : option string) : list string :=
  [cacheKeys.allProducts; cacheKeys.featuredProducts] ++
  match truthy_string productId with
  | Some id => [cacheKeys.productById id]
  | None => []
  end.

Definition invalidateProductCaches (productId : option string) (cs : Caches) : Caches :=
  let cs1 := {| productCache := clear (productCache cs); apiCache := apiCache cs |} in
  fold_left
    (fun cs' key => {| productCache := productCache cs';
                       apiCache := snd (delete (apiCache cs') key) |})
    (keysToDelete productId) cs1.

(** *** The memoizing wrapper *)

(** How an awaited computation settles. *)
Inductive completion :=
| Resolved (v : jsval)
| Rejected (e : jsval).

(** What a wrapped call can see and change: the clock read by [Date.now()],
    the caches, the environment [S] of the wrapped function (a database,
    say), and a counter of the wrapped function's invocations. *)
Record World (S : Type) := mkWorld {
  clock : Z;
  caches : Caches;
  env : S;
  invocations : nat
}.
Arguments mkWorld {S}.
Arguments clock {S}.
Arguments caches {S}.
Arguments env {S}.
Arguments invocations {S}.

(** Time passes and the environment changes between two calls. *)
Definition later {S : Type} (now : Z) (e : S) (w : World S) : World S :=
  {| clock := now; caches := caches w; env := e; invocations := invocations w |}.

Section WithCache.
Context {S A : Type}.

(** The wrapped function: from its arguments and environment to how it
    settles, the environment it leaves and the milliseconds it took. *)
Variable fn : A -> S -> completion * S * Z.
Variable keyGenerator : A -> string.
(** [cache: MemoryCache = apiCache] *)
Variable cacheArg : option CacheRef.
Variable ttl : option Z.

Definition target : CacheRef := default ApiCacheRef cacheArg.

(** One call of the function returned by [withCache], run to completion
    without other callers in between. *)
Definition withCache (args : A) (w : World S) : completion * World S :=
  let key := keyGenerator args in
  let '(cached, c1) := get (deref target (caches w)) key (clock w) in
  let w1 := {| clock := clock w; caches := assign target c1 (caches w);
               env := env w; invocations := invocations w |} in
  if not_null cached then (Resolved cached, w1)
  else
    let '(r, e2, elapsed) := fn args (env w1) in
    let w2 := {| clock := clock w1 + elapsed; caches := caches w1;
                 env := e2; invocations := Datatypes.S (invocations w1) |} in
    match r with
    | Rejected e => (Rejected e, w2)
    | Resolved result =>
        let c3 := set (deref target (caches w2)) key result ttl (clock w2) in
        (Resolved result,
         {| clock := clock w2; caches := assign target c3 (caches w2);
            env := env w2; invocations := invocations w2 |})
    end.

(** The entry for [key] in the target cache is still fresh at [now]. *)
Definition within_ttl (key : string) (now : Z) (w : World S) : Prop :=
  match cache (deref target (caches w)) !! key with
  | Some entry => expired entry now = false
  | None => False
  end.
End WithCache.

(** *** Concrete states used in the examples below *)

(** A lookup that resolves to [null] while its environment holds [0] (no
    such product yet) and to the number held otherwise. *)
Definition find_product (_ : unit) (s : Z) : completion * Z * Z :=
  (Resolved (if s =? 0 then JNull else JNumber s), s, 0).

(** A computation that always rejects, after 3 ms. *)
Definition failing_query (_ : unit) (s : Z) : completion * Z * Z :=
  (Rejected (JString "connection lost"), s, 3).

(** A computation that resolves to the number in its environment, after 2 ms. *)
Definition read_counter (_ : unit) (s : Z) : completion * Z * Z :=
  (Resolved (JNumber s), s, 2).

Definition product7_key (_ : unit) : string := cacheKeys.productById "7".

Definition world0 : World Z :=
  {| clock := 0; caches := initial_caches; env := 0; invocations := 0 |}.

(** At time 100 the API cache still holds an entry stored at time 0 with a
    ttl of 10 ms. *)
Definition stale_world : World Z :=
  {| clock := 100;
     caches := {| productCache := new_MemoryCache 300000;
                  apiCache := set (new_MemoryCache 60000) (product7_key tt)
                                  (JString "old") (Some 10) 0 |};
     env := 0; invocations := 0 |}.

(** Both caches populated at time 0, the API cache also under the key that
    [productById] gives for the empty identifier. *)
Definition populated : Caches :=
  {| productCache :=
       set (new_MemoryCache 300000) (cacheKeys.productsByCategory "shoes")
           (JArray [JString "boot"]) None 0;
     apiCache :=
       set (set (set (new_MemoryCache 60000) (cacheKeys.productById "")
                     (JString "nameless") None 0)
                cacheKeys.allProducts (JArray []) None 0)
           (cacheKeys.productById "42") (JObject [("name"%string, JString "Widget")])
           (Some 5000) 0 |}.

(** *** Diagnostics *)

(** [getStats()]: the number of stored entries and their keys.  The keys are
    given as a set: the order of the array (insertion order) is not
    modelled. *)
Record Stats := mkStats {
  size : nat;
  keys : gset string
}.

Definition getStats (c : MemoryCache) : Stats :=
  {| size := base.size (cache c); keys := dom (cache c) |}.

(** [invalidateProductCaches] as a step of a world. *)
Definition invalidate {S : Type} (productId : option string) (w : World S) : World S :=
  {| clock := clock w; caches := invalidateProductCaches productId (caches w);
     env := env w; invocations := invocations w |}.

End Cache.

(** ** Predicates on keys *)

(** [s.includes(c)] for a single code unit. *)
Fixpoint contains_char (c : ascii) (s : string) : bool :=
  match s with
  | String c' s' => Ascii.eqb c' c || contains_char c s'
  | EmptyString => false
  end.

(** Every code unit of [s] is one that [trim] removes. *)
Fixpoint all_space (s : string) : bool :=
  match s with
  | String c s' => is_js_space c && all_space s'
  | EmptyString => true
  end.

Definition starts_with_space (s : string) : bool :=
  match s with
  | String c _ => is_js_space c
  | EmptyString => false
  end.

(** [request.headers.get("user-agent") || "unknown"] *)
Definition userAgent_of (request : RateLimit.NextRequest) : string :=
  match truthy_string (RateLimit.headers_get request "user-agent") with
  | Some ua => ua
  | None => "unknown"%string
  end.

(** The outcomes, in order, of those calls of a run whose key is [key]. *)
Fixpoint outcomes_for (key : string) (config : RateLimit.RateLimitConfig)
    (calls : list (RateLimit.NextRequest * Z)) (store : RateLimit.Store)
    : list RateLimit.outcome :=
  match calls with
  | [] => []
  | (request, now) :: rest =>
      let '(o, store1) := RateLimit.rateLimit config request now store in
      if bool_decide (RateLimit.key_of config request = key)
      then o :: outcomes_for key config rest store1
      else outcomes_for key config rest store1
  end.

(** ** The error handler ([errorHandler.ts]) *)

Module ErrorHandler.
Import Cache.

(** What a [catch] clause can receive: an instance of [AppError] (or of one
    of its subclasses) with its [details] field, another [Error] with its
    name, message and stack, or a value that is not an [Error]. *)
Inductive thrown :=
| ThrownAppError (e : AppError) (details : jsval)
| ThrownError (name message : string) (stack : option string)
| ThrownValue (v : jsval).

(** JavaScript truthiness, as [error.details && ...] tests it. *)
Definition truthy (v : jsval) : bool :=
  match v with
  | JNull | JUndefined => false
  | JBool b => b
  | JNumber z => negb (z =? 0)
  | JString s => negb (bool_decide (s = ""%string))
  | JArray _ | JObject _ => true
  end.

Record NextResponse := mkResponse {
  status : Z;
  body : jsval
}.

(** [NextResponse.json(body, { status })]: the [Response] constructor throws
    a RangeError ([None]) for a status outside 200..599. *)
Definition NextResponse_json (body : jsval) (status : Z) : option NextResponse :=
  if (200 <=? status) && (status <=? 599)
  then Some {| status := status; body := body |}
  else None.

Definition optional_string (o : option string) : jsval :=
  match o with
  | Some s => JString s
  | None => JUndefined
  end.

(** [handleApiError(error, context)], with [isDevelopment] for
    [process.env.NODE_ENV === 'development'].  The call of [logError] only
    writes to the console and is left out, and with it [context]. *)
Definition handleApiError (isDevelopment : bool) (error : thrown) : option NextResponse :=
  match error with
  | ThrownAppError e details =>
      NextResponse_json
        (JObject ([("success"%string, JBool false);
                   ("error"%string, JString (message e));
                   ("code"%string, optional_string (code e))] ++
                  (if truthy details then [("details"%string, details)] else [])))
        (statusCode e)
  | ThrownError name message stack =>
      if bool_decide (name = "ValidationError"%string) then
        NextResponse_json
          (JObject [("success"%string, JBool false);
                    ("error"%string, JString message);
                    ("code"%string, JString "VALIDATION_ERROR")])
          400
      else
        NextResponse_json
          (JObject ([("success"%string, JBool false);
                     ("error"%string,
                      JString (if isDevelopment then message
                               else "Internal server error"%string))] ++
                    (if isDevelopment
                     then [("stack"%string, optional_string stack)] else [])))
          500
  | ThrownValue _ =>
      NextResponse_json
        (JObject [("success"%string, JBool false);
                  ("error"%string,
                   JString (if isDevelopment then "Unknown error"%string
                            else "Internal server error"%string))])
        500
  end.

(** The other error classes, as their constructors build them. *)
Definition ValidationError (msg : string) : AppError :=
  {| name := "ValidationError"; message := msg;
     statusCode := 400; code := Some "VALIDATION_ERROR"%string |}.


Definition ConflictError (msg : string) : AppError :=
  {| name := "ConflictError"; message := msg;
     statusCode := 409; code := Some "CONFLICT"%string |}.


(** Looking up a field of an object value. *)
Fixpoint field (fields : list (string * jsval)) (key : string) : option jsval :=
  match fields with
  | [] => None
  | (k, v) :: rest => if bool_decide (k = key) then Some v else field rest key
  end.

Definition body_field (r : NextResponse) (key : string) : option jsval :=
  match body r with
  | JObject fields => field fields key
  | _ => None
  end.

End ErrorHandler.

(** * Properties *)

(** ** Arithmetic of the retry delay *)

(** [ceil_div a b] is the least integer [c] with [a <= b * c]. *)
Lemma ceil_div_is_ceiling (a b : Z) :
  0 < b -> b * (ceil_div a b - 1) < a <= b * ceil_div a b.
Proof.
  intros Hb. unfold ceil_div.
  pose proof (Z.mul_div_le (- a) b Hb).
  pose proof (Z.mul_succ_div_gt (- a) b Hb).
  lia.
Qed.

Lemma ceil_div_nonneg (a b : Z) : 0 < b -> 0 <= a -> 0 <= ceil_div a b.
Proof.
  intros Hb Ha. pose proof (ceil_div_is_ceiling a b Hb). nia.
Qed.

(** ** The admission controller *)

Module RateLimitProps.
Import RateLimit.

Section OneLimiter.
Variable config : RateLimitConfig.

Lemma rateLimit_opens (request : NextRequest) (now : Z) (store : Store) :
  opens_window (key_of config request) now store ->
  rateLimit config request now store =
    (Returns,
     <[key_of config request :=
         {| count := 1; resetTime := now + windowMs config |}]> store).
Proof.
  unfold rateLimit. intros [-> | (e & -> & Hlt)]; [reflexivity |].
  destruct (Z.gtb_spec now (resetTime e)); [reflexivity | lia].
Qed.

(** Inside the window the stored count moves up by one on every call,
    rejected calls included. *)
Lemma rateLimit_counts (request : NextRequest) (now : Z) (store : Store)
    (e : RateLimitEntry) :
  store !! key_of config request = Some e ->
  now <= resetTime e ->
  rateLimit config request now store =
    (if count e + 1 >? maxRequests config
     then Throws (RateLimitError (limit_message (ceil_div (resetTime e - now) 1000)))
     else Returns,
     <[key_of config request :=
         {| count := count e + 1; resetTime := resetTime e |}]> store).
Proof.
  intros Hk Hle. unfold rateLimit. rewrite Hk.
  destruct (Z.gtb_spec now (resetTime e)); [lia |]. cbn [count resetTime].
  destruct (count e + 1 >? maxRequests config); [reflexivity |].
  by rewrite insert_insert_eq.
Qed.

Lemma rateLimit_other_key (request : NextRequest) (now : Z) (store : Store)
    (other : string) :
  key_of config request <> other ->
  (rateLimit config request now store).2 !! other = store !! other.
Proof.
  intros Hne. unfold rateLimit.
  destruct (store !! key_of config request) as [e |] eqn:Hk; cbn.
  - destruct (now >? resetTime e); cbn.
    + by rewrite lookup_insert_ne.
    + destruct (count e + 1 >? maxRequests config); cbn;
        by rewrite ?lookup_insert_ne.
  - by rewrite lookup_insert_ne.
Qed.

(** Every call of a run returns: there is one outcome per call. *)
Lemma run_length (calls : list (NextRequest * Z)) (store : Store) :
  length (run config calls store).1 = length calls.
Proof.
  revert store. induction calls as [| [request now] rest IH]; intros store;
    [reflexivity |].
  cbn [run]. destruct (rateLimit config request now store) as [o store1].
  specialize (IH store1). destruct (run config rest store1) as [os store2].
  cbn in *. by rewrite IH.
Qed.

(** From an entry with count [c] and reset timestamp [R], the [i]-th next
    call for the key inside the window (counting from 0) sees the count
    [c + i + 1], and the count after the run is [c] plus the number of calls. *)
Lemma run_in_window (key : string) (calls : list (NextRequest * Z)) :
  forall (store : Store) (c R : Z),
    store !! key = Some {| count := c; resetTime := R |} ->
    Forall (fun call => key_of config call.1 = key /\ call.2 <= R) calls ->
    (forall (i : nat) (call : NextRequest * Z),
       calls !! i = Some call ->
       (run config calls store).1 !! i =
         Some (if c + Z.of_nat i + 1 >? maxRequests config
               then Throws (RateLimitError (limit_message (ceil_div (R - call.2) 1000)))
               else Returns)) /\
    (run config calls store).2 !! key =
      Some {| count := c + Z.of_nat (length calls); resetTime := R |}.
Proof.
  induction calls as [| [request now] rest IH]; intros store c R Hk Hall.
  - split.
    + intros i call Hi. by rewrite lookup_nil in Hi.
    + cbn. rewrite Hk. do 2 f_equal. lia.
  - apply Forall_cons in Hall as [[Hkey Hnow] Hrest]. cbn [fst snd] in Hkey, Hnow.
    subst key. cbn [run].
    rewrite (rateLimit_counts request now store _ Hk Hnow). cbn [count resetTime].
    set (store1 := <[key_of config request := _]> store).
    assert (Hk1 : store1 !! key_of config request =
                  Some {| count := c + 1; resetTime := R |})
      by apply lookup_insert_eq.
    destruct (IH store1 (c + 1) R Hk1 Hrest) as [IHout IHstore].
    destruct (run config rest store1) as [os store2]. cbn [fst snd] in *.
    split.
    + intros [| i] call Hi.
      * cbn in Hi |- *. injection Hi as <-. cbn [snd].
        replace (c + Z.of_nat 0 + 1) with (c + 1) by lia. reflexivity.
      * change (((request, now) :: rest) !! S i) with (rest !! i) in Hi.
        change (os !! i = Some
          (if c + Z.of_nat (S i) + 1 >? maxRequests config
           then Throws (RateLimitError (limit_message (ceil_div (R - call.2) 1000)))
           else Returns)).
        rewrite (IHout i call Hi).
        replace (c + 1 + Z.of_nat i + 1) with (c + Z.of_nat (S i) + 1) by lia.
        reflexivity.
    + rewrite IHstore. do 2 f_equal. cbn [length]. lia.
Qed.

(** The sweep keeps the entries whose window is still open, so it does not
    disturb a run inside a window. *)
Lemma sweep_keeps_open (t : Z) (store : Store) (key : string) (e : RateLimitEntry) :
  store !! key = Some e -> t <= resetTime e -> sweep t store !! key = Some e.
Proof.
  intros Hk Hle. unfold sweep. apply map_lookup_filter_Some. split; [exact Hk |].
  cbn. lia.
Qed.
End OneLimiter.

(** The first call of a window is admitted whatever the quota is, a quota
    of 0 included. *)
Example first_call_passes_with_zero_quota :
  (rateLimit {| maxRequests := 0; windowMs := 1000; keyGenerator := None |}
     scenario_request 0 ∅).1 = Returns.
Proof. reflexivity. Qed.

(** C1. Calls for one key through one limiter whose quota is at least one
    request, the first of them opening a window and the others made no later
    than that window's reset timestamp: call number [n + 1] is admitted when
    [n + 1 <= maxRequests], and otherwise throws the RateLimitError whose
    message carries [Math.ceil((resetTime - now) / 1000)], where [resetTime]
    is the first call's time plus [windowMs]. *)
Theorem rateLimit_quota (config : RateLimitConfig) (store : Store)
    (first : NextRequest) (t1 : Z) (calls : list (NextRequest * Z)) :
  1 <= maxRequests config ->
  opens_window (key_of config first) t1 store ->
  Forall (fun call => key_of config call.1 = key_of config first /\
                      call.2 <= t1 + windowMs config) calls ->
  forall (n : nat) (call : NextRequest * Z),
    ((first, t1) :: calls) !! n = Some call ->
    (run config ((first, t1) :: calls) store).1 !! n =
      Some (if Z.of_nat (S n) <=? maxRequests config
            then Returns
            else Throws (RateLimitError (limit_message
                   (ceil_div (t1 + windowMs config - call.2) 1000)))).
Proof.
  intros Hmax Hopen Hall n call Hn.
  cbn [run]. rewrite (rateLimit_opens config first t1 store Hopen).
  set (R := t1 + windowMs config) in *.
  set (store1 := <[key_of config first := _]> store).
  assert (Hk1 : store1 !! key_of config first = Some {| count := 1; resetTime := R |})
    by apply lookup_insert_eq.
  destruct (run_in_window config _ calls store1 1 R Hk1 Hall) as [Hrun _].
  destruct (run config calls store1) as [os store2]. cbn [fst] in *.
  destruct n as [| i].
  - change ((Returns :: os) !! 0%nat) with (Some Returns).
    destruct (Z.leb_spec (Z.of_nat 1) (maxRequests config)); [reflexivity | lia].
  - change (((first, t1) :: calls) !! S i) with (calls !! i) in Hn.
    change ((Returns :: os) !! S i) with (os !! i).
    rewrite (Hrun i call Hn).
    destruct (Z.gtb_spec (1 + Z.of_nat i + 1) (maxRequests config));
      destruct (Z.leb_spec (Z.of_nat (S (S i))) (maxRequests config));
      try reflexivity; lia.
Qed.

Lemma rateLimit_quota_witness :
  (run scenario_config
     [(scenario_request, 0); (scenario_request, 10); (curl_request, 20);
      (scenario_request, 30)] ∅).1 !! 2%nat =
    Some (Throws (RateLimitError "Rate limit exceeded. Try again in 1 seconds.")).
Proof.
  apply (rateLimit_quota scenario_config ∅ scenario_request 0
           [(scenario_request, 10); (curl_request, 20); (scenario_request, 30)]
           ltac:(vm_compute; discriminate) ltac:(left; reflexivity)
           ltac:(repeat constructor; vm_compute; discriminate)
           2%nat (curl_request, 20) eq_refl).
Defined.

(** C2 as stated fails at the reset timestamp itself: with the quota used
    up, a call made exactly [windowMs] after the window opened is still
    counted against the old window and rejected. *)
Lemma rateLimit_at_reset_time_rejects :
  ((run scenario_config [(scenario_request, 0); (scenario_request, 0)] ∅).2
     !! "ip1"%string = Some {| count := 2; resetTime := 1000 |}) /\
  (resetTime {| count := 2; resetTime := 1000 |} <= 1000) /\
  (rateLimit scenario_config scenario_request 1000
       (run scenario_config [(scenario_request, 0); (scenario_request, 0)] ∅).2 =
     (Throws (RateLimitError "Rate limit exceeded. Try again in 0 seconds."),
      {[ "ip1"%string := {| count := 3; resetTime := 1000 |} ]})) /\
  ((rateLimit scenario_config scenario_request 1000
       (run scenario_config [(scenario_request, 0); (scenario_request, 0)] ∅).2).1
     <> Returns).
Proof.
  repeat split; try (vm_compute; reflexivity); vm_compute; discriminate.
Qed.

(** C2, amended. A call that finds no entry for its key, or an entry whose
    reset timestamp is strictly earlier than now, is admitted and leaves the
    fresh entry [count = 1], [resetTime = now + windowMs]; so after a window
    opened at [t1], whatever number of calls was made inside it, a call made
    more than [windowMs] after [t1] is admitted and resets the count to 1. *)
Theorem rateLimit_fresh_window (config : RateLimitConfig) (request : NextRequest)
    (now : Z) (store : Store) :
  (opens_window (key_of config request) now store ->
   rateLimit config request now store =
     (Returns,
      <[key_of config request :=
          {| count := 1; resetTime := now + windowMs config |}]> store)) /\
  (forall (t1 : Z) (calls : list (NextRequest * Z)),
     opens_window (key_of config request) t1 store ->
     Forall (fun call => key_of config call.1 = key_of config request /\
                         call.2 <= t1 + windowMs config) calls ->
     t1 + windowMs config < now ->
     let store' := (run config ((request, t1) :: calls) store).2 in
     (rateLimit config request now store').1 = Returns /\
     ((rateLimit config request now store').2 !! key_of config request =
        Some {| count := 1; resetTime := now + windowMs config |})).
Proof.
  split; [apply rateLimit_opens |].
  intros t1 calls Hopen Hall Hlate store'.
  assert (Hopen' : opens_window (key_of config request) now store').
  { right. subst store'. cbn [run].
    rewrite (rateLimit_opens config request t1 store Hopen).
    set (store1 := <[key_of config request := _]> store).
    assert (Hk1 : store1 !! key_of config request =
                  Some {| count := 1; resetTime := t1 + windowMs config |})
      by apply lookup_insert_eq.
    destruct (run_in_window config _ calls store1 1 _ Hk1 Hall) as [_ Hst].
    destruct (run config calls store1) as [os store2]. cbn [snd] in *.
    eexists. split; [exact Hst | cbn; lia]. }
  rewrite (rateLimit_opens config request now store' Hopen'). cbn [fst snd].
  split; [reflexivity | apply lookup_insert_eq].
Qed.

Lemma rateLimit_fresh_window_witness :
  (rateLimit scenario_config scenario_request 1001
      (run scenario_config
         [(scenario_request, 0); (scenario_request, 0); (scenario_request, 0)] ∅).2 =
    (Returns,
     <[key_of scenario_config scenario_request :=
         {| count := 1; resetTime := 1001 + windowMs scenario_config |}]>
       (run scenario_config
          [(scenario_request, 0); (scenario_request, 0); (scenario_request, 0)] ∅).2)) /\
  ((rateLimit scenario_config scenario_request 1001
     (run scenario_config
        [(scenario_request, 0); (scenario_request, 0); (scenario_request, 0)] ∅).2).1
   = Returns).
Proof.
  split.
  - apply (proj1 (rateLimit_fresh_window scenario_config scenario_request 1001
             (run scenario_config
                [(scenario_request, 0); (scenario_request, 0); (scenario_request, 0)]
                ∅).2)).
    right. exists {| count := 3; resetTime := 1000 |}.
    split; [vm_compute; reflexivity | vm_compute; reflexivity].
  - apply (proj2 (rateLimit_fresh_window scenario_config scenario_request 1001 ∅)
             0 [(scenario_request, 0); (scenario_request, 0)]).
    + left. reflexivity.
    + repeat constructor; vm_compute; discriminate.
    + vm_compute. reflexivity.
Defined.

(** C8. A call whose key resolves to [A] leaves the entry stored for any
    other key [B] (or its absence) as it was. *)
Theorem rateLimit_frame (config : RateLimitConfig) (request : NextRequest)
    (now : Z) (store : Store) (A B : string) :
  A <> B ->
  key_of config request = A ->
  (rateLimit config request now store).2 !! B = store !! B.
Proof.
  intros Hne HA. apply rateLimit_other_key. by rewrite HA.
Qed.

Lemma rateLimit_frame_witness :
  (rateLimit scenario_config scenario_request 5
     (rateLimit scenario_config other_request 0 ∅).2).2 !! "ip2"%string =
  (rateLimit scenario_config other_request 0 ∅).2 !! "ip2"%string.
Proof.
  apply (rateLimit_frame scenario_config scenario_request 5 _ "ip1" "ip2").
  - discriminate.
  - reflexivity.
Defined.

(** C9. Every limiter works on the one table, addressed by the bare key.
    When two limiters produce the same key, the second one counts on the
    entry the first one left: it finds the count the first one wrote and the
    reset timestamp the first one computed from its own [windowMs], whatever
    the second limiter's window is.  The general and the strict API limiter
    produce the same key for every request, and the bot-protection limiter
    can produce the key of another request's address; so requests admitted
    by the general limiter use up the strict limiter's quota. *)
Theorem limiters_share_store :
  (forall (config1 config2 : RateLimitConfig) (request1 request2 : NextRequest)
          (t1 t2 : Z) (store : Store),
     key_of config1 request1 = key_of config2 request2 ->
     opens_window (key_of config1 request1) t1 store ->
     t2 <= t1 + windowMs config1 ->
     let store1 := (rateLimit config1 request1 t1 store).2 in
     (store1 !! key_of config2 request2 =
        Some {| count := 1; resetTime := t1 + windowMs config1 |}) /\
     ((rateLimit config2 request2 t2 store1).2 !! key_of config1 request1 =
        Some {| count := 2; resetTime := t1 + windowMs config1 |}) /\
     ((rateLimit config2 request2 t2 store1).1 =
        if 2 >? maxRequests config2
        then Throws (RateLimitError (limit_message
               (ceil_div (t1 + windowMs config1 - t2) 1000)))
        else Returns)) /\
  (forall request : NextRequest,
     key_of apiRateLimit request = key_of strictApiRateLimit request) /\
  (key_of botProtectionRateLimit curl_request = key_of apiRateLimit colon_request) /\
  ((rateLimit strictApiRateLimit scenario_request 1
      (run apiRateLimit (replicate 10 (scenario_request, 0)) ∅).2).1 =
   Throws (RateLimitError "Rate limit exceeded. Try again in 900 seconds.")).
Proof.
  split; [| split; [| split]].
  - intros config1 config2 request1 request2 t1 t2 store Hkey Hopen Ht2 store1.
    subst store1. rewrite (rateLimit_opens config1 request1 t1 store Hopen).
    cbn [snd]. rewrite <- Hkey.
    set (store1 := <[key_of config1 request1 := _]> store).
    assert (Hk1 : store1 !! key_of config1 request1 =
                  Some {| count := 1; resetTime := t1 + windowMs config1 |})
      by apply lookup_insert_eq.
    split; [exact Hk1 |].
    assert (Hk2 : store1 !! key_of config2 request2 =
                  Some {| count := 1; resetTime := t1 + windowMs config1 |})
      by (by rewrite <- Hkey).
    rewrite (rateLimit_counts config2 request2 t2 store1 _ Hk2 Ht2).
    cbn [fst snd count resetTime]. rewrite <- Hkey.
    split; [apply lookup_insert_eq | reflexivity].
  - reflexivity.
  - vm_compute. reflexivity.
  - vm_compute. reflexivity.
Qed.

Lemma limiters_share_store_witness :
  (rateLimit strictApiRateLimit scenario_request 5
     (rateLimit apiRateLimit scenario_request 0 ∅).2).2
    !! key_of apiRateLimit scenario_request =
  Some {| count := 2; resetTime := 0 + windowMs apiRateLimit |}.
Proof.
  apply (proj1 limiters_share_store apiRateLimit strictApiRateLimit
           scenario_request scenario_request 0 5 ∅).
  - reflexivity.
  - left. reflexivity.
  - vm_compute. discriminate.
Defined.

End RateLimitProps.

(** ** The response cache *)

Module CacheProps.
Import Cache.

Lemma get_absent (c : MemoryCache) (key : string) (now : Z) :
  cache c !! key = None -> get c key now = (JNull, c).
Proof. intros H. unfold get. by rewrite H. Qed.

Lemma get_fresh (c : MemoryCache) (key : string) (now : Z) (entry : CacheEntry) :
  cache c !! key = Some entry -> expired entry now = false ->
  get c key now = (data entry, c).
Proof. intros H He. unfold get. by rewrite H, He. Qed.

Lemma get_stale (c : MemoryCache) (key : string) (now : Z) (entry : CacheEntry) :
  cache c !! key = Some entry -> expired entry now = true ->
  get c key now = (JNull, evict c key).
Proof. intros H He. unfold get. by rewrite H, He. Qed.

Lemma expired_false (entry : CacheEntry) (now : Z) :
  expired entry now = false <-> now - timestamp entry <= ttl entry.
Proof.
  unfold expired.
  destruct (Z.gtb_spec (now - timestamp entry) (ttl entry)); split; (lia || done).
Qed.

Lemma expired_true (entry : CacheEntry) (now : Z) :
  expired entry now = true <-> now - timestamp entry > ttl entry.
Proof.
  unfold expired.
  destruct (Z.gtb_spec (now - timestamp entry) (ttl entry)); split; (lia || done).
Qed.

Lemma lookup_set (c : MemoryCache) (key : string) (v : jsval) (t : option Z) (now : Z) :
  cache (set c key v t now) !! key =
    Some {| data := v; timestamp := now; ttl := ttl_or_default t (defaultTTL c) |}.
Proof. unfold set. cbn. apply lookup_insert_eq. Qed.

Lemma lookup_evict (c : MemoryCache) (key : string) :
  cache (evict c key) !! key = None.
Proof. unfold evict. cbn. apply lookup_delete_eq. Qed.

Lemma lookup_evict_ne (c : MemoryCache) (key other : string) :
  key <> other -> cache (evict c key) !! other = cache c !! other.
Proof. intros H. unfold evict. cbn. by apply lookup_delete_ne. Qed.

(** What [get] answers depends on the entry of the key alone. *)
Lemma get_result_lookup (c c' : MemoryCache) (key : string) (now : Z) :
  cache c !! key = cache c' !! key -> (get c key now).1 = (get c' key now).1.
Proof.
  intros H. unfold get. rewrite H. destruct (cache c' !! key) as [e |]; [| done].
  by destruct (expired e now).
Qed.

Lemma assign_deref (r : CacheRef) (cs : Caches) : assign r (deref r cs) cs = cs.
Proof. by destruct r, cs. Qed.

Lemma deref_assign (r : CacheRef) (c : MemoryCache) (cs : Caches) :
  deref r (assign r c cs) = c.
Proof. by destruct r. Qed.

(** C3 as stated fails for the explicit ttl 0: the entry gets the default
    ttl, so a [get] made when [now - storedAt] already exceeds the given ttl
    still returns the value and removes nothing. *)
Lemma get_after_zero_ttl_returns_value :
  let c1 := set (new_MemoryCache 60000) "k" (JString "v") (Some 0) 0 in
  (1 - 0 > 0) /\
  (get c1 "k" 1 = (JString "v", c1)) /\
  ((get c1 "k" 1).1 <> JNull) /\
  (cache (get c1 "k" 1).2 !! "k"%string =
     Some {| data := JString "v"; timestamp := 0; ttl := 60000 |}).
Proof.
  cbv zeta. repeat split; try (vm_compute; reflexivity); vm_compute; discriminate.
Qed.

(** C3, amended. After [set(k, v, ttl)] at time [t0], with the stored ttl
    being the given one when it is present and not zero and the cache's
    default otherwise: a [get(k)] while [now - t0] is at most the stored ttl
    returns [v] and leaves the cache as it is (so does a [get] at [t0] itself
    when the stored ttl is not negative); a [get(k)] when [now - t0] exceeds
    the stored ttl returns [null] and removes the entry; and a [get] of a key
    without entry returns [null] and leaves the cache as it is. *)
Theorem set_then_get (c : MemoryCache) (k : string) (v : jsval)
    (ttl : option Z) (t0 now : Z) :
  let stored := ttl_or_default ttl (defaultTTL c) in
  let c1 := set c k v ttl t0 in
  (forall t : Z, ttl = Some t -> t <> 0 -> stored = t) /\
  (ttl = None \/ ttl = Some 0 -> stored = defaultTTL c) /\
  (now - t0 <= stored -> get c1 k now = (v, c1)) /\
  (0 <= stored -> get c1 k t0 = (v, c1)) /\
  (now - t0 > stored ->
     get c1 k now = (JNull, evict c1 k) /\ cache (evict c1 k) !! k = None) /\
  (forall k' : string, cache c !! k' = None -> get c k' now = (JNull, c)).
Proof.
  intros stored c1.
  pose proof (lookup_set c k v ttl t0) as Hk. fold c1 stored in Hk.
  repeat split.
  - intros t -> Ht. subst stored. cbn. destruct (Z.eqb_spec t 0); [done | reflexivity].
  - intros [-> | ->]; reflexivity.
  - intros Hle. rewrite (get_fresh c1 k now _ Hk); [reflexivity |].
    apply expired_false. cbn. lia.
  - intros Hle. rewrite (get_fresh c1 k t0 _ Hk); [reflexivity |].
    apply expired_false. cbn. lia.
  - rewrite (get_stale c1 k now _ Hk); [reflexivity |].
    apply expired_true. cbn. lia.
  - apply lookup_evict.
  - intros k' Hnone. by apply get_absent.
Qed.

Lemma set_then_get_witness :
  get (set (new_MemoryCache 60000) "product:42" (JString "Widget") (Some 5000) 0)
      "product:42" 5000 =
    (JString "Widget",
     set (new_MemoryCache 60000) "product:42" (JString "Widget") (Some 5000) 0) /\
  get (set (new_MemoryCache 60000) "k" JNull (Some 10) 0) "k" 11 =
    (JNull, evict (set (new_MemoryCache 60000) "k" JNull (Some 10) 0) "k").
Proof.
  split.
  - apply (proj1 (proj2 (proj2 (set_then_get (new_MemoryCache 60000) "product:42"
             (JString "Widget") (Some 5000) 0 5000)))).
    vm_compute. discriminate.
  - apply (proj1 (proj2 (proj2 (proj2 (proj2 (set_then_get (new_MemoryCache 60000) "k"
             JNull (Some 10) 0 11)))))).
    vm_compute. reflexivity.
Defined.

(** C7. [has(k)] makes the freshness check of [get(k)]: it answers [true]
    exactly when the key has an unexpired entry, which is when [get] returns
    that entry's value; it answers [false] exactly when the key has no entry
    or an expired one, which is when [get] returns [null] for "absent"; and
    it leaves the cache in the state [get] leaves it in, the expired entry
    removed. *)
Theorem has_agrees_with_get (c : MemoryCache) (k : string) (now : Z) :
  ((has c k now).2 = (get c k now).2) /\
  ((has c k now).1 = true <->
     exists entry, cache c !! k = Some entry /\ expired entry now = false /\
                   get c k now = (data entry, c)) /\
  ((has c k now).1 = false <->
     (cache c !! k = None \/
      exists entry, cache c !! k = Some entry /\ expired entry now = true) /\
     (get c k now).1 = JNull) /\
  (forall entry, cache c !! k = Some entry -> expired entry now = true ->
     (has c k now).1 = false /\ cache (has c k now).2 !! k = None).
Proof.
  unfold has, get.
  destruct (cache c !! k) as [entry |] eqn:Hk;
    [destruct (expired entry now) eqn:He |]; cbn [fst snd];
    (split; [reflexivity |]); (split; [| split]).
  - split; [discriminate |]. intros (e' & [= <-] & He' & _). congruence.
  - split; [| reflexivity]. intros _. split; [| reflexivity].
    right. by exists entry.
  - intros e' [= <-] _. split; [reflexivity | apply lookup_evict].
  - split; [| reflexivity]. intros _. by exists entry.
  - split; [discriminate |].
    intros [[Hn | (e' & [= <-] & He')] _]; congruence.
  - intros e' [= <-] He'. congruence.
  - split; [discriminate |]. intros (e' & He' & _). discriminate.
  - split; [| reflexivity]. intros _. split; [by left | reflexivity].
  - intros e' He'. discriminate.
Qed.

Lemma has_agrees_with_get_witness :
  (has (apiCache (caches stale_world)) (product7_key tt) 100).1 = false /\
  cache (has (apiCache (caches stale_world)) (product7_key tt) 100).2
    !! product7_key tt = None.
Proof.
  apply (proj2 (proj2 (proj2 (has_agrees_with_get (apiCache (caches stale_world))
           (product7_key tt) 100)))
           {| data := JString "old"; timestamp := 0; ttl := 10 |}).
  - vm_compute. reflexivity.
  - vm_compute. reflexivity.
Defined.

(** A stored [null] is an entry like any other: [has] answers [true] and
    [get] returns the stored [null]. *)
Example has_true_for_stored_null :
  let c := set (new_MemoryCache 60000) "k" JNull None 0 in
  has c "k" 1 = (true, c) /\ get c "k" 1 = (JNull, c).
Proof. cbv zeta. split; vm_compute; reflexivity. Qed.

(** C10. On a cache with a positive default TTL, [set(k, v, 0)] stores the
    entry with the default TTL, not with 0: a [get(k)] at the same instant,
    and any [get(k)] no later than the default TTL after it, returns [v]; and
    whatever ttl is passed to [set], explicit or not, the stored ttl is never
    0. *)
Theorem set_zero_ttl_takes_default (c : MemoryCache) (k : string) (v : jsval) (t0 : Z) :
  0 < defaultTTL c ->
  let c1 := set c k v (Some 0) t0 in
  (cache c1 !! k = Some {| data := v; timestamp := t0; ttl := defaultTTL c |}) /\
  (get c1 k t0 = (v, c1)) /\
  (forall now : Z, now - t0 <= defaultTTL c -> get c1 k now = (v, c1)) /\
  (forall (ttl : option Z) (t : Z),
     exists entry, cache (set c k v ttl t) !! k = Some entry /\
                   Cache.ttl entry <> 0).
Proof.
  intros Hpos c1.
  pose proof (lookup_set c k v (Some 0) t0) as Hk. fold c1 in Hk.
  change (ttl_or_default (Some 0) (defaultTTL c)) with (defaultTTL c) in Hk.
  repeat split.
  - exact Hk.
  - rewrite (get_fresh c1 k t0 _ Hk); [reflexivity |]. apply expired_false. cbn. lia.
  - intros now Hnow. rewrite (get_fresh c1 k now _ Hk); [reflexivity |].
    apply expired_false. cbn. lia.
  - intros ttl t. eexists. split; [apply lookup_set |]. cbn [Cache.ttl].
    destruct ttl as [z |]; cbn; [| lia]. destruct (Z.eqb_spec z 0); lia.
Qed.

Lemma set_zero_ttl_takes_default_witness :
  get (set (apiCache initial_caches) "k" (JString "v") (Some 0) 7) "k" 60007 =
    (JString "v", set (apiCache initial_caches) "k" (JString "v") (Some 0) 7).
Proof.
  apply (proj1 (proj2 (proj2 (set_zero_ttl_takes_default (apiCache initial_caches)
           "k" (JString "v") 7 ltac:(vm_compute; reflexivity)))) 60007).
  vm_compute. discriminate.
Defined.

(** A non-zero ttl is stored as given, a negative one included: such an
    entry is expired from the start. *)
Example set_negative_ttl_is_kept :
  get (set (new_MemoryCache 60000) "k" (JString "v") (Some (-1)) 0) "k" 0 =
    (JNull, new_MemoryCache 60000).
Proof. vm_compute. reflexivity. Qed.

(** *** Invalidation *)

Lemma fold_delete_caches (keys : list string) (cs : Caches) :
  let cs' := fold_left
    (fun cs' key => {| productCache := productCache cs';
                       apiCache := (delete (apiCache cs') key).2 |}) keys cs in
  productCache cs' = productCache cs /\
  apiCache cs' = fold_left evict keys (apiCache cs).
Proof.
  revert cs. induction keys as [| key keys IH]; intros cs; [done |].
  cbn. destruct (IH {| productCache := productCache cs;
                       apiCache := evict (apiCache cs) key |}) as [Hp Ha].
  split; [exact Hp | exact Ha].
Qed.

Lemma fold_evict_lookup (keys : list string) (c : MemoryCache) (k : string) :
  cache (fold_left evict keys c) !! k =
    if bool_decide (k ∈ keys) then None else cache c !! k.
Proof.
  revert c. induction keys as [| key keys IH]; intros c; [done |].
  cbn [fold_left]. rewrite IH.
  destruct (decide (k = key)) as [-> | Hne].
  - rewrite lookup_evict.
    rewrite (bool_decide_eq_true_2 (key ∈ key :: keys)) by (apply elem_of_cons; by left).
    by case_bool_decide.
  - rewrite (lookup_evict_ne c key k) by done.
    destruct (decide (k ∈ keys)) as [Hin | Hnin].
    + rewrite !bool_decide_eq_true_2; [done | rewrite elem_of_cons; auto | done].
    + rewrite !bool_decide_eq_false_2;
        [done | rewrite elem_of_cons; intros [? | ?]; done | done].
Qed.

Lemma fold_evict_defaultTTL (keys : list string) (c : MemoryCache) :
  defaultTTL (fold_left evict keys c) = defaultTTL c.
Proof.
  revert c. induction keys as [| key keys IH]; intros c; [done |].
  cbn [fold_left]. by rewrite IH.
Qed.

Lemma category_key_kept (productId : option string) (name : string) :
  cacheKeys.productsByCategory name ∉ keysToDelete productId.
Proof.
  unfold keysToDelete. destruct (truthy_string productId) as [id |];
    cbn [app]; intros H;
    repeat (apply elem_of_cons in H as [H | H]; [by vm_compute in H |]);
    by apply elem_of_nil in H.
Qed.

Lemma search_key_kept (productId : option string) (query : string) :
  cacheKeys.productsBySearch query ∉ keysToDelete productId.
Proof.
  unfold keysToDelete. destruct (truthy_string productId) as [id |];
    cbn [app]; intros H;
    repeat (apply elem_of_cons in H as [H | H]; [by vm_compute in H |]);
    by apply elem_of_nil in H.
Qed.

Lemma invalidate_caches (productId : option string) (cs : Caches) :
  productCache (invalidateProductCaches productId cs) = clear (productCache cs) /\
  apiCache (invalidateProductCaches productId cs) =
    fold_left evict (keysToDelete productId) (apiCache cs).
Proof.
  unfold invalidateProductCaches.
  exact (fold_delete_caches (keysToDelete productId)
           {| productCache := clear (productCache cs); apiCache := apiCache cs |}).
Qed.

(** C4 as stated fails in two places.  An identifier can be supplied and be
    the empty string: [if (productId)] then skips it and the API cache keeps
    its entry under ['product:'].  And the product cache is emptied as a
    whole, so a category-scoped entry stored there does not last until its
    TTL expires. *)
Lemma invalidate_empty_id_keeps_entry :
  let cs' := invalidateProductCaches (Some ""%string) populated in
  ((get (apiCache populated) (cacheKeys.productById "") 1).1 = JString "nameless") /\
  ((get (apiCache cs') (cacheKeys.productById "") 1).1 = JString "nameless") /\
  ((get (apiCache cs') (cacheKeys.productById "") 1).1 <> JNull) /\
  ((get (productCache populated) (cacheKeys.productsByCategory "shoes") 1).1 =
     JArray [JString "boot"]) /\
  ((get (productCache cs') (cacheKeys.productsByCategory "shoes") 1).1 = JNull) /\
  (cache (productCache cs') !! cacheKeys.productsByCategory "shoes" = None).
Proof.
  cbv zeta. repeat split; try (vm_compute; reflexivity); vm_compute; discriminate.
Qed.

(** C4, amended. After [invalidateProductCaches(id)]: on the API cache
    [get('products:all')] and [get('products:featured')] return [null], and
    so does [get('product:<id>')] when a non-empty id was supplied, whatever
    was stored before; every other entry of the API cache, in particular
    every category-scoped and every search-scoped one, is left as it was and
    answers [get] as before; the product cache is emptied.  (What happens to
    ['product:'] for an empty id is not part of this statement.) *)
Theorem invalidate_frame (productId : option string) (cs : Caches) (now : Z) :
  let cs' := invalidateProductCaches productId cs in
  ((get (apiCache cs') cacheKeys.allProducts now).1 = JNull) /\
  ((get (apiCache cs') cacheKeys.featuredProducts now).1 = JNull) /\
  (forall id : string, productId = Some id -> id <> ""%string ->
     (get (apiCache cs') (cacheKeys.productById id) now).1 = JNull) /\
  (forall k : string, k ∉ keysToDelete productId ->
     cache (apiCache cs') !! k = cache (apiCache cs) !! k /\
     (get (apiCache cs') k now).1 = (get (apiCache cs) k now).1) /\
  (forall name : string,
     (cacheKeys.productsByCategory name ∉ keysToDelete productId) /\
     (cacheKeys.productsBySearch name ∉ keysToDelete productId)) /\
  (defaultTTL (apiCache cs') = defaultTTL (apiCache cs)) /\
  (cache (productCache cs') = ∅).
Proof.
  intros cs'. destruct (invalidate_caches productId cs) as [Hp Ha].
  fold cs' in Hp, Ha.
  assert (Hdel : forall k, k ∈ keysToDelete productId ->
                   (get (apiCache cs') k now).1 = JNull).
  { intros k Hin. rewrite get_absent; [reflexivity |].
    rewrite Ha, fold_evict_lookup. by rewrite bool_decide_eq_true_2. }
  split; [| split; [| split; [| split; [| split; [| split]]]]].
  - apply Hdel. unfold keysToDelete. rewrite elem_of_app, elem_of_cons. auto.
  - apply Hdel. unfold keysToDelete. rewrite elem_of_app, !elem_of_cons. auto.
  - intros id -> Hid. apply Hdel. unfold keysToDelete. rewrite elem_of_app.
    right. destruct id; [done |]. cbn. apply elem_of_cons. by left.
  - intros k Hk.
    assert (Heq : cache (apiCache cs') !! k = cache (apiCache cs) !! k).
    { rewrite Ha, fold_evict_lookup. by rewrite bool_decide_eq_false_2. }
    split; [exact Heq | by apply get_result_lookup].
  - intros name. split; [apply category_key_kept | apply search_key_kept].
  - rewrite Ha. apply fold_evict_defaultTTL.
  - by rewrite Hp.
Qed.

Lemma invalidate_frame_witness :
  (get (apiCache (invalidateProductCaches (Some "42"%string) populated))
       (cacheKeys.productById "42") 1).1 = JNull /\
  (cache (apiCache (invalidateProductCaches (Some "42"%string) populated))
     !! cacheKeys.productById "" =
   cache (apiCache populated) !! cacheKeys.productById "").
Proof.
  split.
  - apply (proj1 (proj2 (proj2 (invalidate_frame (Some "42"%string) populated 1)))
             "42"%string eq_refl).
    discriminate.
  - apply (proj1 (proj2 (proj2 (proj2 (invalidate_frame (Some "42"%string) populated 1))))
             (cacheKeys.productById "")).
    vm_compute. intros H.
    repeat (apply elem_of_cons in H as [H | H]; [discriminate H |]).
    by apply elem_of_nil in H.
Defined.

(** *** The memoizing wrapper *)

Section WithCacheProps.
Context {S A : Type}.
Variable fn : A -> S -> completion * S * Z.
Variable keyGenerator : A -> string.
Variable cacheArg : option CacheRef.
Variable ttl : option Z.

(** A fresh, non-null entry answers the call: the wrapped function is not
    invoked and nothing changes. *)
Lemma withCache_hit (args : A) (w : World S) (entry : CacheEntry) :
  cache (deref (target cacheArg) (caches w)) !! keyGenerator args = Some entry ->
  expired entry (clock w) = false ->
  not_null (data entry) = true ->
  withCache fn keyGenerator cacheArg ttl args w = (Resolved (data entry), w).
Proof.
  intros Hk He Hnn. unfold withCache.
  rewrite (get_fresh _ _ _ _ Hk He), Hnn.
  rewrite assign_deref. by destruct w.
Qed.

(** A call that finds nothing usable invokes the wrapped function once. *)
Lemma withCache_miss (args : A) (w : World S) :
  let key := keyGenerator args in
  let looked := get (deref (target cacheArg) (caches w)) key (clock w) in
  not_null looked.1 = false ->
  withCache fn keyGenerator cacheArg ttl args w =
    let '(r, e2, elapsed) := fn args (env w) in
    let cs1 := assign (target cacheArg) looked.2 (caches w) in
    match r with
    | Rejected e =>
        (Rejected e,
         {| clock := clock w + elapsed; caches := cs1; env := e2;
            invocations := Datatypes.S (invocations w) |})
    | Resolved result =>
        (Resolved result,
         {| clock := clock w + elapsed;
            caches := assign (target cacheArg)
              (set (deref (target cacheArg) cs1) key result ttl (clock w + elapsed)) cs1;
            env := e2; invocations := Datatypes.S (invocations w) |})
    end.
Proof.
  intros key looked Hnull. unfold withCache. fold key.
  subst looked.
  destruct (get (deref (target cacheArg) (caches w)) key (clock w)) as [cached c1].
  cbn [fst snd] in *. rewrite Hnull. cbn [clock caches env invocations].
  destruct (fn args (env w)) as [[r e2] elapsed]. by destruct r.
Qed.

Lemma withCache_invocations (args : A) (w : World S) :
  (invocations (withCache fn keyGenerator cacheArg ttl args w).2
   <= Datatypes.S (invocations w))%nat.
Proof.
  unfold withCache.
  destruct (get (deref (target cacheArg) (caches w)) (keyGenerator args) (clock w))
    as [cached c1].
  destruct (not_null cached); cbn; [lia |].
  destruct (fn args (env w)) as [[r e2] elapsed]. destruct r; cbn; lia.
Qed.

(** After a call that resolved to a non-null value, the target cache holds
    that value under the call's key. *)
Lemma withCache_resolved_entry (args : A) (w : World S) (v : jsval) :
  (withCache fn keyGenerator cacheArg ttl args w).1 = Resolved v ->
  v <> JNull ->
  exists entry,
    cache (deref (target cacheArg)
             (caches (withCache fn keyGenerator cacheArg ttl args w).2))
      !! keyGenerator args = Some entry /\
    data entry = v.
Proof.
  intros Hres Hv.
  destruct (not_null (get (deref (target cacheArg) (caches w)) (keyGenerator args) (clock w)).1)
    eqn:Hnn.
  - unfold get in Hnn.
    destruct (cache (deref (target cacheArg) (caches w)) !! keyGenerator args)
      as [entry |] eqn:Hk;
      [| discriminate].
    destruct (expired entry (clock w)) eqn:He; [discriminate |]. cbn in Hnn.
    rewrite (withCache_hit args w entry Hk He Hnn) in Hres |- *. cbn in Hres |- *.
    exists entry. split; [exact Hk | congruence].
  - rewrite (withCache_miss args w Hnn) in Hres |- *.
    destruct (fn args (env w)) as [[r e2] elapsed]. destruct r as [result | e];
      cbn in Hres |- *; [| discriminate].
    injection Hres as ->. rewrite deref_assign.
    eexists. split; [apply lookup_set | reflexivity].
Qed.
End WithCacheProps.

(** C5 as stated fails when the wrapped function resolves to [null]: the
    value is stored, but the wrapper takes the [null] that [get] returns for
    it as a miss, so the second call invokes the function again and returns
    what it computes now. *)
Lemma withCache_null_is_recomputed :
  let call := withCache find_product product7_key None None tt in
  let w1 := (call world0).2 in
  ((call world0).1 = Resolved JNull) /\
  (cache (apiCache (caches w1)) !! product7_key tt =
     Some {| data := JNull; timestamp := 0; ttl := 60000 |}) /\
  within_ttl None (product7_key tt) 1 w1 /\
  ((call (later 1 5 w1)).1 = Resolved (JNumber 5)) /\
  (invocations (call (later 1 5 w1)).2 = 2%nat).
Proof.
  cbv zeta. repeat split; vm_compute; reflexivity.
Qed.

(** C5, amended. When a call of the wrapped function resolves to a value
    other than [null], a second call with the same arguments, made while the
    entry holding that value is within its ttl, returns the same value
    without invoking the underlying function and without changing anything,
    whatever the underlying function would compute by then; the two calls
    together invoke it at most once. *)
Theorem withCache_memoizes {S A : Type} (fn : A -> S -> completion * S * Z)
    (keyGenerator : A -> string) (cacheArg : option CacheRef) (ttl : option Z)
    (args : A) (w0 : World S) (v : jsval) (now' : Z) (env' : S) :
  let call := withCache fn keyGenerator cacheArg ttl args in
  (call w0).1 = Resolved v ->
  v <> JNull ->
  within_ttl cacheArg (keyGenerator args) now' (call w0).2 ->
  let w1 := later now' env' (call w0).2 in
  call w1 = (Resolved v, w1) /\
  invocations (call w1).2 = invocations (call w0).2 /\
  (invocations (call w1).2 <= Datatypes.S (invocations w0))%nat.
Proof.
  intros call Hres Hv Hfresh w1.
  destruct (withCache_resolved_entry fn keyGenerator cacheArg ttl args w0 v Hres Hv)
    as (entry & Hk & Hdata).
  fold call in Hk. unfold within_ttl in Hfresh. rewrite Hk in Hfresh.
  assert (Hnn : not_null (data entry) = true).
  { rewrite Hdata. by destruct v. }
  assert (Hcall : call w1 = (Resolved v, w1)).
  { rewrite <- Hdata.
    apply (withCache_hit fn keyGenerator cacheArg ttl args w1 entry); done. }
  rewrite Hcall. cbn [fst snd]. split; [reflexivity |]. split; [reflexivity |].
  apply withCache_invocations.
Qed.

Lemma withCache_memoizes_witness :
  withCache read_counter product7_key None (Some 5000) tt
      (later 5002 9 (withCache read_counter product7_key None (Some 5000) tt world0).2) =
    (Resolved (JNumber 0),
     later 5002 9 (withCache read_counter product7_key None (Some 5000) tt world0).2).
Proof.
  apply (withCache_memoizes read_counter product7_key None (Some 5000) tt world0
           (JNumber 0) 5002 9).
  - reflexivity.
  - discriminate.
  - vm_compute. reflexivity.
Defined.

(** The window of an entry written on a miss starts when the wrapped
    function has settled. *)
Lemma within_ttl_after_miss {S A : Type} (fn : A -> S -> completion * S * Z)
    (keyGenerator : A -> string) (cacheArg : option CacheRef) (ttl : option Z)
    (args : A) (w : World S) (v : jsval) (e2 : S) (elapsed now' : Z) :
  not_null (get (deref (target cacheArg) (caches w)) (keyGenerator args) (clock w)).1
    = false ->
  fn args (env w) = (Resolved v, e2, elapsed) ->
  within_ttl cacheArg (keyGenerator args) now'
    (withCache fn keyGenerator cacheArg ttl args w).2 <->
  now' - (clock w + elapsed) <=
    ttl_or_default ttl (defaultTTL (deref (target cacheArg) (caches w))).
Proof.
  intros Hnn Hfn. rewrite (withCache_miss fn keyGenerator cacheArg ttl args w Hnn).
  rewrite Hfn. cbn [snd]. unfold within_ttl. cbn [caches].
  rewrite !deref_assign, lookup_set, expired_false. cbn [timestamp Cache.ttl].
  unfold get. destruct (cache _ !! _) as [en |]; [destruct (expired en _) |]; done.
Qed.

(** C6 as stated fails when the miss is due to an expired entry: the lookup
    removes that entry before the wrapped function is invoked, so after the
    rejected call the key's entry is gone, not unchanged. *)
Lemma withCache_error_evicts_stale :
  let r := withCache failing_query product7_key None None tt stale_world in
  (cache (apiCache (caches stale_world)) !! product7_key tt =
     Some {| data := JString "old"; timestamp := 0; ttl := 10 |}) /\
  (r.1 = Rejected (JString "connection lost")) /\
  (cache (apiCache (caches r.2)) !! product7_key tt = None) /\
  (cache (apiCache (caches r.2)) !! product7_key tt <>
   cache (apiCache (caches stale_world)) !! product7_key tt).
Proof.
  cbv zeta. repeat split; try (vm_compute; reflexivity); vm_compute; discriminate.
Qed.

(** C6, amended. When a call misses and the wrapped function rejects with
    [e], the call rejects with the same [e] and stores nothing: the caches
    are as the lookup left them, that is unchanged when the key had no entry
    or an unexpired one, and without the key's entry when that entry had
    expired; entries of other keys are untouched. *)
Theorem withCache_error_not_stored {S A : Type} (fn : A -> S -> completion * S * Z)
    (keyGenerator : A -> string) (cacheArg : option CacheRef) (ttl : option Z)
    (args : A) (w : World S) (e : jsval) (e2 : S) (elapsed : Z) :
  let key := keyGenerator args in
  let c := deref (target cacheArg) (caches w) in
  not_null (get c key (clock w)).1 = false ->
  fn args (env w) = (Rejected e, e2, elapsed) ->
  let r := withCache fn keyGenerator cacheArg ttl args w in
  (r.1 = Rejected e) /\
  (caches r.2 = assign (target cacheArg) (get c key (clock w)).2 (caches w)) /\
  (cache c !! key = None \/
   (exists entry, cache c !! key = Some entry /\ expired entry (clock w) = false) ->
   caches r.2 = caches w) /\
  (forall entry, cache c !! key = Some entry -> expired entry (clock w) = true ->
   cache (deref (target cacheArg) (caches r.2)) !! key = None) /\
  (forall k' : string, k' <> key ->
   cache (deref (target cacheArg) (caches r.2)) !! k' = cache c !! k').
Proof.
  intros key c Hnn Hfn r. subst r.
  rewrite (withCache_miss fn keyGenerator cacheArg ttl args w Hnn), Hfn.
  fold key c. cbn [fst snd caches].
  split; [reflexivity |]. split; [reflexivity |]. split; [| split].
  - intros [Hnone | (entry & Hk & He)].
    + rewrite (get_absent c key _ Hnone). apply assign_deref.
    + rewrite (get_fresh c key _ entry Hk He). apply assign_deref.
  - intros entry Hk He. rewrite deref_assign, (get_stale c key _ entry Hk He).
    apply lookup_evict.
  - intros k' Hne. rewrite deref_assign. unfold get.
    destruct (cache c !! key) as [entry |]; [| reflexivity].
    destruct (expired entry (clock w)); [| reflexivity].
    cbn [snd]. by apply lookup_evict_ne.
Qed.

Lemma withCache_error_not_stored_witness :
  (withCache failing_query product7_key None None tt world0).1 =
    Rejected (JString "connection lost") /\
  caches (withCache failing_query product7_key None None tt world0).2 = caches world0.
Proof.
  split.
  - apply (proj1 (withCache_error_not_stored failing_query product7_key None None
             tt world0 (JString "connection lost") 0 3 eq_refl eq_refl)).
  - apply (proj1 (proj2 (proj2 (withCache_error_not_stored failing_query product7_key
             None None tt world0 (JString "connection lost") 0 3 eq_refl eq_refl)))).
    left. reflexivity.
Defined.

End CacheProps.

(** * Further properties of the admission controller *)

Module RateLimitMore.
Import RateLimit RateLimitProps.

Lemma sweep_lookup (t : Z) (store : Store) (k : string) :
  sweep t store !! k =
    match store !! k with
    | Some e => if t >? resetTime e then None else Some e
    | None => None
    end.
Proof.
  unfold sweep. destruct (store !! k) as [e |] eqn:Hk.
  - destruct (Z.gtb_spec t (resetTime e)) as [Hgt | Hle].
    + apply map_lookup_filter_None. right. intros e' He'. cbn.
      rewrite Hk in He'. injection He' as <-. lia.
    + apply map_lookup_filter_Some. split; [exact Hk | cbn; lia].
  - apply map_lookup_filter_None. by left.
Qed.

(** X1. A sweep that ran at or before the time of a call does not change
    the call's outcome nor the entry the call leaves for its key: whatever
    the sweep removed, the call would have replaced. *)
Theorem rateLimit_after_sweep (config : RateLimitConfig) (request : NextRequest)
    (t now : Z) (store : Store) :
  t <= now ->
  (rateLimit config request now (sweep t store)).1 =
    (rateLimit config request now store).1 /\
  (rateLimit config request now (sweep t store)).2 !! key_of config request =
    (rateLimit config request now store).2 !! key_of config request.
Proof.
  intros Hle. unfold rateLimit. rewrite sweep_lookup.
  destruct (store !! key_of config request) as [e |] eqn:Hk.
  - destruct (Z.gtb_spec t (resetTime e)) as [Hgt | Hkeep].
    + destruct (Z.gtb_spec now (resetTime e)); [| lia].
      cbn [fst snd]. by rewrite !lookup_insert_eq.
    + destruct (now >? resetTime e).
      * cbn [fst snd]. by rewrite !lookup_insert_eq.
      * cbn [count resetTime].
        destruct (count e + 1 >? maxRequests config); cbn [fst snd];
          by rewrite !lookup_insert_eq.
  - cbn [fst snd]. by rewrite !lookup_insert_eq.
Qed.

Lemma rateLimit_after_sweep_witness :
  (rateLimit scenario_config scenario_request 1500
     (sweep 1200 (rateLimit scenario_config scenario_request 0 ∅).2)).1 =
  (rateLimit scenario_config scenario_request 1500
     (rateLimit scenario_config scenario_request 0 ∅).2).1.
Proof.
  apply (proj1 (rateLimit_after_sweep scenario_config scenario_request 1200 1500
                  (rateLimit scenario_config scenario_request 0 ∅).2
                  ltac:(vm_compute; discriminate))).
Defined.

(** X2. Two sweeps in a row amount to one sweep at the later of the two
    times; so a sweep is idempotent and sweeps commute. *)
Theorem sweep_sweep (t1 t2 : Z) (store : Store) :
  sweep t2 (sweep t1 store) = sweep (Z.max t1 t2) store.
Proof.
  apply map_eq. intros k. rewrite !sweep_lookup.
  destruct (store !! k) as [e |]; [| reflexivity].
  destruct (Z.gtb_spec t1 (resetTime e)), (Z.gtb_spec t2 (resetTime e)),
    (Z.gtb_spec (Z.max t1 t2) (resetTime e)); try reflexivity; lia.
Qed.

(** A call is rejected only inside an open window whose count it pushes
    beyond the quota. *)
Lemma rateLimit_throws_inv (config : RateLimitConfig) (request : NextRequest)
    (t : Z) (store : Store) (e : AppError) :
  (rateLimit config request t store).1 = Throws e ->
  exists entry,
    store !! key_of config request = Some entry /\
    t <= resetTime entry /\
    maxRequests config < count entry + 1 /\
    e = RateLimitError (limit_message (ceil_div (resetTime entry - t) 1000)) /\
    (rateLimit config request t store).2 =
      <[key_of config request :=
          {| count := count entry + 1; resetTime := resetTime entry |}]> store.
Proof.
  unfold rateLimit.
  destruct (store !! key_of config request) as [entry |] eqn:Hk; [| discriminate].
  destruct (Z.gtb_spec t (resetTime entry)) as [| Hin]; [discriminate |].
  cbn [count resetTime].
  destruct (Z.gtb_spec (count entry + 1) (maxRequests config)) as [Hover |];
    [| discriminate].
  cbn [fst snd]. intros [= <-]. exists entry. done.
Qed.

(** X3. Rejection persists: once a call for a key was rejected, every
    further call for that key through the same limiter, made no later than
    the entry's reset timestamp, is rejected as well. *)
Theorem rejection_persists (config : RateLimitConfig) (request : NextRequest)
    (t : Z) (store : Store) (e : AppError) :
  (rateLimit config request t store).1 = Throws e ->
  exists entry,
    (rateLimit config request t store).2 !! key_of config request = Some entry /\
    t <= resetTime entry /\
    forall (request' : NextRequest) (t' : Z),
      key_of config request' = key_of config request ->
      t' <= resetTime entry ->
      exists e', (rateLimit config request' t' (rateLimit config request t store).2).1
                 = Throws e'.
Proof.
  intros Hthrow.
  destruct (rateLimit_throws_inv config request t store e Hthrow)
    as (entry & Hk & Hin & Hover & _ & ->).
  eexists. split; [apply lookup_insert_eq |].
  cbn [resetTime]. split; [exact Hin |].
  intros request' t' Hkey Ht'.
  set (store1 := <[key_of config request := _]> store).
  assert (Hk1 : store1 !! key_of config request' =
                Some {| count := count entry + 1; resetTime := resetTime entry |})
    by (rewrite Hkey; apply lookup_insert_eq).
  rewrite (rateLimit_counts config request' t' store1 _ Hk1 Ht').
  cbn [count resetTime fst].
  destruct (Z.gtb_spec (count entry + 1 + 1) (maxRequests config)); [| lia].
  eauto.
Qed.

Lemma rejection_persists_witness :
  exists entry,
    (rateLimit scenario_config scenario_request 5
       (run scenario_config [(scenario_request, 0); (scenario_request, 1)] ∅).2).2
      !! key_of scenario_config scenario_request = Some entry /\
    5 <= resetTime entry /\
    forall (request' : NextRequest) (t' : Z),
      key_of scenario_config request' = key_of scenario_config scenario_request ->
      t' <= resetTime entry ->
      exists e', (rateLimit scenario_config request' t'
                    (rateLimit scenario_config scenario_request 5
                       (run scenario_config
                          [(scenario_request, 0); (scenario_request, 1)] ∅).2).2).1
                 = Throws e'.
Proof.
  apply (rejection_persists scenario_config scenario_request 5
           (run scenario_config [(scenario_request, 0); (scenario_request, 1)] ∅).2
           (RateLimitError "Rate limit exceeded. Try again in 1 seconds.")).
  vm_compute. reflexivity.
Defined.

(** X4. The advertised delay: a rejected call's message carries a number of
    seconds [secs >= 0]; a call for the same key more than [1000 * secs]
    milliseconds later is admitted and opens a new window, while a call no
    more than [1000 * (secs - 1)] milliseconds later is still rejected. *)
Theorem retry_after_delay (config : RateLimitConfig) (request : NextRequest)
    (t : Z) (store : Store) (e : AppError) :
  (rateLimit config request t store).1 = Throws e ->
  exists secs,
    e = RateLimitError (limit_message secs) /\
    0 <= secs /\
    (forall (request' : NextRequest) (t' : Z),
       key_of config request' = key_of config request ->
       t + 1000 * secs < t' ->
       (rateLimit config request' t' (rateLimit config request t store).2).1 = Returns /\
       (rateLimit config request' t' (rateLimit config request t store).2).2
         !! key_of config request =
         Some {| count := 1; resetTime := t' + windowMs config |}) /\
    (forall (request' : NextRequest) (t' : Z),
       key_of config request' = key_of config request ->
       t' <= t + 1000 * (secs - 1) ->
       exists e', (rateLimit config request' t' (rateLimit config request t store).2).1
                  = Throws e').
Proof.
  intros Hthrow.
  destruct (rateLimit_throws_inv config request t store e Hthrow)
    as (entry & Hk & Hin & Hover & -> & Hstore).
  pose proof (ceil_div_is_ceiling (resetTime entry - t) 1000 ltac:(lia)) as Hceil.
  exists (ceil_div (resetTime entry - t) 1000).
  split; [reflexivity |]. split; [apply ceil_div_nonneg; lia |].
  rewrite Hstore. set (store1 := <[key_of config request := _]> store).
  assert (Hk1 : store1 !! key_of config request =
                Some {| count := count entry + 1; resetTime := resetTime entry |})
    by apply lookup_insert_eq.
  split.
  - intros request' t' Hkey Hlate.
    assert (Hopen : opens_window (key_of config request') t' store1).
    { right. eexists. rewrite Hkey. split; [exact Hk1 | cbn; lia]. }
    rewrite (rateLimit_opens config request' t' _ Hopen). cbn [fst snd].
    split; [reflexivity |]. rewrite Hkey. apply lookup_insert_eq.
  - intros request' t' Hkey Hearly. rewrite <- Hkey in Hk1.
    rewrite (rateLimit_counts config request' t' store1 _ Hk1); [| cbn; lia].
    cbn [count resetTime fst].
    destruct (Z.gtb_spec (count entry + 1 + 1) (maxRequests config)); [| lia].
    eauto.
Qed.

Lemma retry_after_delay_witness :
  exists secs,
    RateLimitError "Rate limit exceeded. Try again in 1 seconds." =
      RateLimitError (limit_message secs) /\
    0 <= secs /\
    (forall (request' : NextRequest) (t' : Z),
       key_of scenario_config request' = key_of scenario_config scenario_request ->
       5 + 1000 * secs < t' ->
       (rateLimit scenario_config request' t'
          (rateLimit scenario_config scenario_request 5
             (run scenario_config [(scenario_request, 0); (scenario_request, 1)] ∅).2).2).1
         = Returns /\
       (rateLimit scenario_config request' t'
          (rateLimit scenario_config scenario_request 5
             (run scenario_config [(scenario_request, 0); (scenario_request, 1)] ∅).2).2).2
         !! key_of scenario_config scenario_request =
         Some {| count := 1; resetTime := t' + windowMs scenario_config |}) /\
    (forall (request' : NextRequest) (t' : Z),
       key_of scenario_config request' = key_of scenario_config scenario_request ->
       t' <= 5 + 1000 * (secs - 1) ->
       exists e', (rateLimit scenario_config request' t'
                     (rateLimit scenario_config scenario_request 5
                        (run scenario_config
                           [(scenario_request, 0); (scenario_request, 1)] ∅).2).2).1
                  = Throws e').
Proof.
  apply (retry_after_delay scenario_config scenario_request 5
           (run scenario_config [(scenario_request, 0); (scenario_request, 1)] ∅).2
           (RateLimitError "Rate limit exceeded. Try again in 1 seconds.")).
  vm_compute. reflexivity.
Defined.

(** What a call decides and what it leaves for its key depend on the table
    through the entry of that key alone. *)
Lemma rateLimit_local (config : RateLimitConfig) (request : NextRequest)
    (now : Z) (store store' : Store) :
  store !! key_of config request = store' !! key_of config request ->
  (rateLimit config request now store).1 = (rateLimit config request now store').1 /\
  (rateLimit config request now store).2 !! key_of config request =
    (rateLimit config request now store').2 !! key_of config request.
Proof.
  intros Heq. unfold rateLimit. rewrite Heq.
  destruct (store' !! key_of config request) as [e |].
  - destruct (now >? resetTime e); cbn [fst snd].
    + by rewrite !lookup_insert_eq.
    + cbn [count resetTime].
      destruct (count e + 1 >? maxRequests config); cbn [fst snd];
        by rewrite !lookup_insert_eq.
  - cbn [fst snd]. by rewrite !lookup_insert_eq.
Qed.

Lemma outcomes_for_local (key : string) (config : RateLimitConfig)
    (calls : list (NextRequest * Z)) :
  forall store store' : Store,
    store !! key = store' !! key ->
    outcomes_for key config calls store =
      (run config (filter (fun call => key_of config call.1 = key) calls) store').1.
Proof.
  induction calls as [| [request now] rest IH]; intros store store' Heq; [done |].
  cbn [outcomes_for]. rewrite filter_cons. cbn [fst].
  destruct (decide (key_of config request = key)) as [Hkey | Hne].
  - rewrite bool_decide_eq_true_2 by done. cbn [run].
    rewrite <- Hkey in Heq.
    destruct (rateLimit_local config request now store store' Heq) as [Ho Hs].
    destruct (rateLimit config request now store) as [o store1].
    destruct (rateLimit config request now store') as [o' store1'].
    cbn [fst snd] in Ho, Hs. subst o'. rewrite Hkey in Hs.
    rewrite (IH store1 store1' Hs).
    by destruct (run config _ store1').
  - rewrite bool_decide_eq_false_2 by done.
    pose proof (rateLimit_other_key config request now store key Hne) as Hframe.
    destruct (rateLimit config request now store) as [o store1]. cbn [snd] in Hframe.
    apply IH. by rewrite Hframe.
Qed.

(** X5. Keys do not interfere within a run: in any interleaving of calls
    through one limiter, the calls for a key are decided exactly as if the
    calls for all other keys had never been made. *)
Theorem keys_do_not_interfere (key : string) (config : RateLimitConfig)
    (calls : list (NextRequest * Z)) (store : Store) :
  outcomes_for key config calls store =
    (run config (filter (fun call => key_of config call.1 = key) calls) store).1.
Proof. by apply outcomes_for_local. Qed.

Lemma contains_char_app (c : ascii) (s1 s2 : string) :
  contains_char c (s1 +:+ s2) = contains_char c s1 || contains_char c s2.
Proof.
  induction s1 as [| a s1 IH]; [reflexivity |].
  change (String a s1 +:+ s2)%string with (String a (s1 +:+ s2)).
  cbn [contains_char]. rewrite IH. apply orb_assoc.
Qed.

Lemma bot_key_has_colon (request : NextRequest) :
  contains_char ":" (key_of botProtectionRateLimit request) = true.
Proof.
  change (key_of botProtectionRateLimit request) with
    (getClientIP request +:+ ":" +:+ userAgent_of request)%string.
  rewrite !contains_char_app. cbn. apply orb_true_r.
Qed.

(** X6. The bot-protection limiter's key always contains a colon.  So for a
    request whose client address has none, the entry that the address-keyed
    limiters read is never created or changed by a bot-protection call. *)
Theorem bot_limiter_spares_plain_addresses (request request' : NextRequest)
    (now : Z) (store : Store) :
  contains_char ":" (getClientIP request') = false ->
  key_of botProtectionRateLimit request <> key_of apiRateLimit request' /\
  (rateLimit botProtectionRateLimit request now store).2 !! key_of apiRateLimit request'
    = store !! key_of apiRateLimit request' /\
  (rateLimit botProtectionRateLimit request now store).2
    !! key_of strictApiRateLimit request'
    = store !! key_of strictApiRateLimit request'.
Proof.
  intros Hplain.
  assert (Hne : key_of botProtectionRateLimit request <> getClientIP request').
  { intros Heq. pose proof (bot_key_has_colon request) as Hc.
    rewrite Heq in Hc. congruence. }
  split; [exact Hne |].
  split; apply rateLimit_other_key; exact Hne.
Qed.

Lemma bot_limiter_spares_plain_addresses_witness :
  (rateLimit botProtectionRateLimit curl_request 7
     (rateLimit apiRateLimit scenario_request 0 ∅).2).2
    !! key_of apiRateLimit scenario_request
  = (rateLimit apiRateLimit scenario_request 0 ∅).2 !! key_of apiRateLimit scenario_request.
Proof.
  apply (proj1 (proj2 (bot_limiter_spares_plain_addresses curl_request scenario_request
                         7 (rateLimit apiRateLimit scenario_request 0 ∅).2 eq_refl))).
Defined.

(** X7. For requests with the same client address, the bot-protection
    limiter uses the same key exactly when the user agents agree, a missing
    or empty user agent counting as ["unknown"]. *)
Theorem bot_key_separates_user_agents (request1 request2 : NextRequest) :
  getClientIP request1 = getClientIP request2 ->
  (key_of botProtectionRateLimit request1 = key_of botProtectionRateLimit request2 <->
   userAgent_of request1 = userAgent_of request2).
Proof.
  intros Hip.
  change (key_of botProtectionRateLimit request1) with
    (getClientIP request1 +:+ ":" +:+ userAgent_of request1)%string.
  change (key_of botProtectionRateLimit request2) with
    (getClientIP request2 +:+ ":" +:+ userAgent_of request2)%string.
  rewrite Hip. split.
  - intros Heq. apply (inj (String.app (getClientIP request2))) in Heq.
    by apply (inj (String.app ":")) in Heq.
  - by intros ->.
Qed.

Lemma bot_key_separates_user_agents_witness :
  key_of botProtectionRateLimit curl_request
    = key_of botProtectionRateLimit scenario_request <->
  userAgent_of curl_request = userAgent_of scenario_request.
Proof.
  apply (bot_key_separates_user_agents curl_request scenario_request). reflexivity.
Defined.

End RateLimitMore.

(** * The client address *)

Module ClientIPProps.
Import RateLimit.

Lemma append_cons (a : ascii) (s1 s2 : string) :
  (String a s1 +:+ s2 = String a (s1 +:+ s2))%string.
Proof. reflexivity. Qed.

Lemma append_empty_r (s : string) : (s +:+ "" = s)%string.
Proof.
  induction s as [| a s IH]; [reflexivity |]. by rewrite append_cons, IH.
Qed.

Lemma rev_app_rev_app (s acc acc' : string) :
  String.rev_app (String.rev_app s acc) acc' = String.rev_app acc (s +:+ acc')%string.
Proof.
  revert acc. induction s as [| a s IH]; intros acc; [reflexivity |].
  cbn [String.rev_app]. rewrite IH. reflexivity.
Qed.

Lemma rev_rev (s : string) : String.rev (String.rev s) = s.
Proof.
  unfold String.rev. rewrite rev_app_rev_app. cbn [String.rev_app].
  apply append_empty_r.
Qed.

Lemma rev_app_empty (s acc : string) :
  String.rev_app s acc = ""%string <-> s = ""%string /\ acc = ""%string.
Proof.
  revert acc. induction s as [| a s IH]; intros acc; cbn [String.rev_app].
  - split; [intros -> | intros [_ ->]]; done.
  - rewrite IH. split; [intros [_ [=]] | intros [[=] _]].
Qed.

Lemma all_space_rev_app (s acc : string) :
  all_space (String.rev_app s acc) = all_space s && all_space acc.
Proof.
  revert acc. induction s as [| a s IH]; intros acc; cbn [String.rev_app all_space];
    [reflexivity |].
  rewrite IH. cbn [all_space]. by destruct (is_js_space a), (all_space s).
Qed.

Lemma contains_char_rev_app (c : ascii) (s acc : string) :
  contains_char c (String.rev_app s acc) = contains_char c s || contains_char c acc.
Proof.
  revert acc. induction s as [| a s IH]; intros acc;
    cbn [String.rev_app contains_char]; [reflexivity |].
  rewrite IH. cbn [contains_char].
  by destruct (Ascii.eqb a c), (contains_char c s).
Qed.

Lemma trim_start_empty (s : string) :
  trim_start s = ""%string <-> all_space s = true.
Proof.
  induction s as [| a s IH]; cbn [trim_start all_space]; [done |].
  destruct (is_js_space a); [exact IH | done].
Qed.

Lemma all_space_trim_start (s : string) : all_space (trim_start s) = all_space s.
Proof.
  induction s as [| a s IH]; cbn [trim_start all_space]; [done |].
  destruct (is_js_space a) eqn:Ha; [exact IH |]. cbn [all_space]. by rewrite Ha.
Qed.

Lemma contains_char_trim_start (c : ascii) (s : string) :
  contains_char c (trim_start s) = true -> contains_char c s = true.
Proof.
  induction s as [| a s IH]; cbn [trim_start contains_char]; [done |].
  destruct (is_js_space a); [| done]. intros H. rewrite (IH H). apply orb_true_r.
Qed.

Lemma starts_with_space_trim_start (s : string) :
  starts_with_space (trim_start s) = false.
Proof.
  induction s as [| a s IH]; cbn [trim_start]; [done |].
  destruct (is_js_space a) eqn:Ha; [exact IH | exact Ha].
Qed.

(** The first code unit of a reversed non-empty string does not depend on
    what the reversal is accumulated onto. *)
Lemma starts_with_space_rev_app (s acc acc' : string) :
  s <> ""%string ->
  starts_with_space (String.rev_app s acc) = starts_with_space (String.rev_app s acc').
Proof.
  revert acc acc'. induction s as [| a s IH]; intros acc acc' Hne; [done |].
  cbn [String.rev_app]. destruct s as [| b s]; [reflexivity |].
  apply IH. discriminate.
Qed.

(** Dropping leading white space does not change the last code unit, unless
    everything is dropped. *)
Lemma last_of_trim_start (s : string) :
  trim_start s <> ""%string ->
  starts_with_space (String.rev (trim_start s)) = starts_with_space (String.rev s).
Proof.
  induction s as [| a s IH]; cbn [trim_start]; [done |].
  destruct (is_js_space a); [| done]. intros Hne. rewrite (IH Hne).
  unfold String.rev. cbn [String.rev_app].
  apply starts_with_space_rev_app. intros ->. by apply Hne.
Qed.

Lemma trim_empty (s : string) : trim s = ""%string <-> all_space s = true.
Proof.
  unfold trim, String.rev. rewrite rev_app_empty, trim_start_empty.
  rewrite all_space_rev_app, all_space_trim_start. cbn [all_space].
  rewrite andb_true_r. split; [intros [H _]; exact H | intros H; done].
Qed.

Lemma trim_is_trimmed (s : string) :
  starts_with_space (trim s) = false /\
  starts_with_space (String.rev (trim s)) = false.
Proof.
  unfold trim. split.
  - destruct (decide (trim_start (String.rev (trim_start s)) = ""%string)) as [-> | Hne];
      [reflexivity |].
    rewrite (last_of_trim_start _ Hne), rev_rev. apply starts_with_space_trim_start.
  - rewrite rev_rev. apply starts_with_space_trim_start.
Qed.

Lemma contains_char_trim (c : ascii) (s : string) :
  contains_char c (trim s) = true -> contains_char c s = true.
Proof.
  unfold trim, String.rev. rewrite contains_char_rev_app. cbn [contains_char].
  rewrite orb_false_r. intros H%contains_char_trim_start.
  rewrite contains_char_rev_app in H. cbn [contains_char] in H.
  rewrite orb_false_r in H. by apply contains_char_trim_start.
Qed.

Lemma split_comma_first_no_comma (s : string) :
  contains_char "," (split_comma_first s) = false.
Proof.
  induction s as [| a s IH]; cbn [split_comma_first]; [done |].
  destruct (Ascii.eqb a ",") eqn:Ha; [done |]. cbn [contains_char]. by rewrite Ha, IH.
Qed.

(** X8. With a non-empty [x-forwarded-for] header the client address is the
    trimmed first entry of that header, whatever the other headers say: it
    contains no comma and neither starts nor ends with white space. *)
Theorem forwarded_address_is_clean (request : NextRequest) (forwarded : string) :
  headers_get request "x-forwarded-for" = Some forwarded ->
  forwarded <> ""%string ->
  getClientIP request = trim (split_comma_first forwarded) /\
  contains_char "," (getClientIP request) = false /\
  starts_with_space (getClientIP request) = false /\
  starts_with_space (String.rev (getClientIP request)) = false.
Proof.
  intros Hget Hne.
  assert (Hip : getClientIP request = trim (split_comma_first forwarded)).
  { unfold getClientIP. rewrite Hget. by destruct forwarded. }
  rewrite Hip. split; [reflexivity |]. split; [| apply trim_is_trimmed].
  destruct (contains_char "," (trim (split_comma_first forwarded))) eqn:Hc; [| done].
  apply contains_char_trim in Hc. by rewrite split_comma_first_no_comma in Hc.
Qed.

Lemma forwarded_address_is_clean_witness :
  getClientIP other_request = trim (split_comma_first " ip2 , ip1") /\
  contains_char "," (getClientIP other_request) = false /\
  starts_with_space (getClientIP other_request) = false /\
  starts_with_space (String.rev (getClientIP other_request)) = false.
Proof.
  apply (forwarded_address_is_clean other_request " ip2 , ip1").
  - reflexivity.
  - discriminate.
Defined.

(** X9. The client address is the empty string exactly when the
    [x-forwarded-for] header is present and not empty and its first entry
    holds nothing but white space; in every other case the address is not
    empty (["unknown"] when no header is usable). *)
Theorem empty_address_iff (request : NextRequest) :
  getClientIP request = ""%string <->
  exists forwarded,
    headers_get request "x-forwarded-for" = Some forwarded /\
    forwarded <> ""%string /\
    all_space (split_comma_first forwarded) = true.
Proof.
  unfold getClientIP.
  destruct (headers_get request "x-forwarded-for") as [[| a fw] |] eqn:Hfw;
    cbn [truthy_string].
  - split; [| intros (fw & [= <-] & Hne & _); done].
    destruct (headers_get request "x-real-ip") as [[| b ip] |]; cbn [truthy_string];
      [| discriminate |];
      (destruct (headers_get request "cf-connecting-ip") as [[| c cf] |];
       cbn [truthy_string]; discriminate).
  - rewrite trim_empty. split.
    + intros Hall. exists (String a fw). done.
    + by intros (fw' & [= <-] & _ & Hall).
  - split; [| intros (fw & [=] & _)].
    destruct (headers_get request "x-real-ip") as [[| b ip] |]; cbn [truthy_string];
      [| discriminate |];
      (destruct (headers_get request "cf-connecting-ip") as [[| c cf] |];
       cbn [truthy_string]; discriminate).
Qed.

End ClientIPProps.

(** * Further properties of the response cache *)

Module CacheMore.
Import Cache CacheProps.

Lemma MemoryCache_eq (c c' : MemoryCache) :
  cache c = cache c' -> defaultTTL c = defaultTTL c' -> c = c'.
Proof. destruct c, c'. cbn. by intros -> ->. Qed.

Lemma cleanup_lookup (c : MemoryCache) (now : Z) (k : string) :
  cache (cleanup c now) !! k =
    match cache c !! k with
    | Some e => if expired e now then None else Some e
    | None => None
    end.
Proof.
  unfold cleanup. cbn [cache]. destruct (cache c !! k) as [e |] eqn:Hk.
  - destruct (expired e now) eqn:He.
    + apply map_lookup_filter_None. right. intros e' He'. cbn.
      rewrite Hk in He'. injection He' as <-. congruence.
    + apply map_lookup_filter_Some. by split.
  - apply map_lookup_filter_None. by left.
Qed.

(** An entry that has expired stays expired as time goes on. *)
Lemma expired_later (e : CacheEntry) (now t : Z) :
  now <= t -> expired e now = true -> expired e t = true.
Proof. rewrite !expired_true. lia. Qed.

(** X10. The periodic clean-up cannot be observed through reads: at the time
    of the clean-up or later, [get] and [has] answer for every key as they
    would have without it. *)
Theorem reads_after_cleanup (c : MemoryCache) (now t : Z) (k : string) :
  now <= t ->
  (get (cleanup c now) k t).1 = (get c k t).1 /\
  (has (cleanup c now) k t).1 = (has c k t).1.
Proof.
  intros Hle. unfold get, has. rewrite cleanup_lookup.
  destruct (cache c !! k) as [e |]; [| done].
  destruct (expired e now) eqn:He.
  - by rewrite (expired_later e now t Hle He).
  - by destruct (expired e t).
Qed.

Lemma reads_after_cleanup_witness :
  (get (cleanup (apiCache (caches stale_world)) 50) (product7_key tt) 100).1 =
    (get (apiCache (caches stale_world)) (product7_key tt) 100).1 /\
  (has (cleanup (apiCache (caches stale_world)) 50) (product7_key tt) 100).1 =
    (has (apiCache (caches stale_world)) (product7_key tt) 100).1.
Proof.
  apply (reads_after_cleanup (apiCache (caches stale_world)) 50 100 (product7_key tt)).
  vm_compute. discriminate.
Defined.

(** X11. Two clean-ups in a row amount to one clean-up at the later of the
    two times; so a clean-up is idempotent and clean-ups commute. *)
Theorem cleanup_cleanup (c : MemoryCache) (t1 t2 : Z) :
  cleanup (cleanup c t1) t2 = cleanup c (Z.max t1 t2).
Proof.
  apply MemoryCache_eq; [| reflexivity].
  apply map_eq. intros k. rewrite !cleanup_lookup.
  destruct (cache c !! k) as [e |]; [| reflexivity].
  unfold expired.
  destruct (Z.gtb_spec (t1 - timestamp e) (ttl e)),
    (Z.gtb_spec (t2 - timestamp e) (ttl e)),
    (Z.gtb_spec (Z.max t1 t2 - timestamp e) (ttl e)); try reflexivity; lia.
Qed.

(** X12. The statistics count expired entries as long as they are stored.
    After a clean-up they list exactly the keys for which [has] answers
    [true] at that time, and the size has not grown. *)
Theorem stats_after_cleanup (c : MemoryCache) (now : Z) :
  (forall k : string,
     k ∈ keys (getStats (cleanup c now)) <-> (has c k now).1 = true) /\
  (forall k : string,
     k ∈ keys (getStats c) <-> is_Some (cache c !! k)) /\
  (size (getStats (cleanup c now)) <= size (getStats c))%nat.
Proof.
  split; [| split].
  - intros k. unfold getStats. cbn [keys]. rewrite elem_of_dom, cleanup_lookup.
    unfold has. destruct (cache c !! k) as [e |].
    + destruct (expired e now); cbn; split; (done || by intros [? ?]).
    + cbn. split; (done || by intros [? ?]).
  - intros k. unfold getStats. cbn [keys]. apply elem_of_dom.
  - unfold getStats, cleanup. cbn [size cache].
    apply map_subseteq_size, map_filter_subseteq.
Qed.

(** X13. [delete] answers [true] exactly when an entry was stored for the
    key, expired or not: so it answers [true] whenever [has] does, but not
    only then.  Afterwards the key is absent at every time and a second
    [delete] answers [false]; other keys keep their entries. *)
Theorem delete_effect (c : MemoryCache) (k : string) :
  ((delete c k).1 = true <-> is_Some (cache c !! k)) /\
  (forall now : Z, (has c k now).1 = true -> (delete c k).1 = true) /\
  (forall now : Z,
     get (delete c k).2 k now = (JNull, (delete c k).2) /\
     has (delete c k).2 k now = (false, (delete c k).2)) /\
  ((delete (delete c k).2 k).1 = false) /\
  (forall k' : string, k' <> k ->
     cache (delete c k).2 !! k' = cache c !! k').
Proof.
  unfold delete. cbn [fst snd].
  split; [apply bool_decide_eq_true |]. split; [| split; [| split]].
  - intros now. rewrite bool_decide_eq_true. unfold has.
    destruct (cache c !! k) as [e |]; [eauto | discriminate].
  - intros now. unfold get, has. by rewrite lookup_evict.
  - apply bool_decide_eq_false. rewrite lookup_evict. by intros [? ?].
  - intros k' Hne. by apply lookup_evict_ne.
Qed.

Lemma delete_effect_witness :
  (delete (set (new_MemoryCache 60000) "k" (JNumber 1) None 0) "k").1 = true.
Proof.
  apply (proj1 (proj2 (delete_effect
           (set (new_MemoryCache 60000) "k" (JNumber 1) None 0) "k")) 5).
  reflexivity.
Defined.

(** X14. Writes compose: a [set] on a key without entry is undone exactly by
    [delete], and of two [set]s on one key only the later one counts. *)
Theorem set_delete_set (c : MemoryCache) (k : string) (v1 v2 : jsval)
    (ttl1 ttl2 : option Z) (t1 t2 : Z) :
  (cache c !! k = None -> (delete (set c k v1 ttl1 t1) k).2 = c) /\
  set (set c k v1 ttl1 t1) k v2 ttl2 t2 = set c k v2 ttl2 t2.
Proof.
  split.
  - intros Hnone. apply MemoryCache_eq; [| reflexivity].
    unfold delete, evict, set. cbn [fst snd cache].
    rewrite delete_insert_eq. by apply delete_id.
  - apply MemoryCache_eq; [| reflexivity].
    unfold set. cbn [cache defaultTTL]. apply insert_insert_eq.
Qed.

Lemma set_delete_set_witness :
  (delete (set (new_MemoryCache 60000) "k" (JNumber 1) (Some 10) 3) "k").2 =
    new_MemoryCache 60000.
Proof.
  apply (proj1 (set_delete_set (new_MemoryCache 60000) "k" (JNumber 1) JNull
                  (Some 10) None 3 0)).
  reflexivity.
Defined.

(** X15. [set] on a key leaves the entries of all other keys, and what
    [get] and [has] answer for them, as they were. *)
Theorem set_frame (c : MemoryCache) (k k' : string) (v : jsval)
    (ttl : option Z) (t0 now : Z) :
  k' <> k ->
  cache (set c k v ttl t0) !! k' = cache c !! k' /\
  (get (set c k v ttl t0) k' now).1 = (get c k' now).1 /\
  (has (set c k v ttl t0) k' now).1 = (has c k' now).1.
Proof.
  intros Hne.
  assert (Heq : cache (set c k v ttl t0) !! k' = cache c !! k').
  { unfold set. cbn [cache]. by apply lookup_insert_ne. }
  split; [exact Heq |]. split; [by apply get_result_lookup |].
  unfold has. rewrite Heq. destruct (cache c !! k') as [e |]; [| done].
  by destruct (expired e now).
Qed.

Lemma set_frame_witness :
  cache (set (apiCache populated) "k" JNull None 9) !! cacheKeys.allProducts =
  cache (apiCache populated) !! cacheKeys.allProducts.
Proof.
  apply (proj1 (set_frame (apiCache populated) "k" cacheKeys.allProducts JNull None 9 0
                  ltac:(discriminate))).
Defined.

(** X16. Reads settle: a second [get] at the same time gives the same
    answer and changes nothing more; and once [has] has answered [false]
    for a key, the key is absent at every time until it is set again, also
    if the clock were to go back. *)
Theorem get_settles (c : MemoryCache) (k : string) (now : Z) :
  get (get c k now).2 k now = ((get c k now).1, (get c k now).2) /\
  ((has c k now).1 = false ->
   forall t : Z, get (has c k now).2 k t = (JNull, (has c k now).2)).
Proof.
  unfold get, has.
  destruct (cache c !! k) as [e |] eqn:Hk.
  - destruct (expired e now) eqn:He; cbn [fst snd].
    + rewrite lookup_evict. done.
    + rewrite Hk, He. done.
  - cbn [fst snd]. rewrite Hk. done.
Qed.

Lemma get_settles_witness :
  get (has (apiCache (caches stale_world)) (product7_key tt) 100).2
      (product7_key tt) 3 =
    (JNull, (has (apiCache (caches stale_world)) (product7_key tt) 100).2).
Proof.
  apply (proj2 (get_settles (apiCache (caches stale_world)) (product7_key tt) 100)
           eq_refl 3).
Defined.

(** X17. Freshness only decays: a key for which [has] answers [false] at
    some time has [false] at every later time (without a new [set]), and a
    value that [get] returns at some time is what [get] returns at every
    earlier time. *)
Theorem freshness_decays (c : MemoryCache) (k : string) (t t' : Z) :
  t <= t' ->
  ((has c k t).1 = false -> (has c k t').1 = false) /\
  ((has c k t').1 = true -> get c k t = get c k t').
Proof.
  intros Hle. unfold has, get.
  destruct (cache c !! k) as [e |]; [| done].
  destruct (expired e t) eqn:He.
  - rewrite (expired_later e t t' Hle He). done.
  - destruct (expired e t'); done.
Qed.

Lemma freshness_decays_witness :
  (has (apiCache (caches stale_world)) (product7_key tt) 100).1 = false.
Proof.
  apply (proj1 (freshness_decays (apiCache (caches stale_world)) (product7_key tt)
                  11 100 ltac:(vm_compute; discriminate))).
  reflexivity.
Defined.

(** *** Keys *)

(** X18. The key generators do not collide: each of the three parametric
    ones is injective, and no two of the five families share a key. *)
Theorem cache_keys_distinct :
  (forall a b : string, cacheKeys.productById a = cacheKeys.productById b -> a = b) /\
  (forall a b : string,
     cacheKeys.productsByCategory a = cacheKeys.productsByCategory b -> a = b) /\
  (forall a b : string,
     cacheKeys.productsBySearch a = cacheKeys.productsBySearch b -> a = b) /\
  (forall a b : string,
     cacheKeys.productById a <> cacheKeys.productsByCategory b /\
     cacheKeys.productById a <> cacheKeys.productsBySearch b /\
     cacheKeys.productsByCategory a <> cacheKeys.productsBySearch b) /\
  (forall a : string,
     cacheKeys.productById a <> cacheKeys.allProducts /\
     cacheKeys.productById a <> cacheKeys.featuredProducts /\
     cacheKeys.productsByCategory a <> cacheKeys.allProducts /\
     cacheKeys.productsByCategory a <> cacheKeys.featuredProducts /\
     cacheKeys.productsBySearch a <> cacheKeys.allProducts /\
     cacheKeys.productsBySearch a <> cacheKeys.featuredProducts) /\
  cacheKeys.allProducts <> cacheKeys.featuredProducts.
Proof.
  split; [| split; [| split; [| split; [| split]]]].
  - intros a b H. by apply (inj (String.app "product:")) in H.
  - intros a b H. by apply (inj (String.app "products:category:")) in H.
  - intros a b H. by apply (inj (String.app "products:search:")) in H.
  - intros a b. repeat split; intros H; vm_compute in H; discriminate H.
  - intros a. repeat split; intros H; vm_compute in H; discriminate H.
  - discriminate.
Qed.

(** *** The memoizing wrapper and invalidation *)

Lemma deref_assign_ne (r r' : CacheRef) (c : MemoryCache) (cs : Caches) :
  r' <> r -> deref r' (assign r c cs) = deref r' cs.
Proof. by destruct r, r'. Qed.

Lemma get_frame (c : MemoryCache) (k k' : string) (now : Z) :
  defaultTTL (get c k now).2 = defaultTTL c /\
  (k' <> k -> cache (get c k now).2 !! k' = cache c !! k').
Proof.
  unfold get. destruct (cache c !! k) as [e |]; [| done].
  destruct (expired e now); [| done]. cbn [snd].
  split; [reflexivity |]. intros Hne. by apply lookup_evict_ne.
Qed.

(** X19. A wrapped call touches one key of one cache: the other cache
    instance is left as it is, and in the target cache the entries of all
    other keys and the default TTL are left as they are, whether the call
    hits, misses, resolves or rejects. *)
Theorem withCache_frame {S A : Type} (fn : A -> S -> completion * S * Z)
    (keyGenerator : A -> string) (cacheArg : option CacheRef) (ttl : option Z)
    (args : A) (w : World S) :
  let r := withCache fn keyGenerator cacheArg ttl args w in
  (forall ref : CacheRef, ref <> target cacheArg ->
     deref ref (caches r.2) = deref ref (caches w)) /\
  (forall k' : string, k' <> keyGenerator args ->
     cache (deref (target cacheArg) (caches r.2)) !! k' =
       cache (deref (target cacheArg) (caches w)) !! k') /\
  defaultTTL (deref (target cacheArg) (caches r.2)) =
    defaultTTL (deref (target cacheArg) (caches w)).
Proof.
  intros r. subst r. unfold withCache.
  pose proof (get_frame (deref (target cacheArg) (caches w)) (keyGenerator args))
    as Hget.
  destruct (get (deref (target cacheArg) (caches w)) (keyGenerator args) (clock w))
    as [cached c1] eqn:Hlook.
  assert (Hc1 : defaultTTL c1 = defaultTTL (deref (target cacheArg) (caches w)) /\
                forall k', k' <> keyGenerator args ->
                  cache c1 !! k' = cache (deref (target cacheArg) (caches w)) !! k').
  { split.
    - pose proof (proj1 (Hget (keyGenerator args) (clock w))) as H.
      by rewrite Hlook in H.
    - intros k' Hne. pose proof (proj2 (Hget k' (clock w)) Hne) as H.
      by rewrite Hlook in H. }
  destruct Hc1 as [Httl Hother].
  destruct (not_null cached); cbn [fst snd caches clock env invocations].
  - split; [| split].
    + intros ref Hne. by apply deref_assign_ne.
    + intros k' Hne. rewrite deref_assign. by apply Hother.
    + by rewrite deref_assign.
  - destruct (fn args (env w)) as [[res e2] elapsed].
    destruct res as [result | e]; cbn [fst snd caches clock env].
    + split; [| split].
      * intros ref Hne. by rewrite !deref_assign_ne by done.
      * intros k' Hne. rewrite !deref_assign. unfold set. cbn [cache].
        rewrite lookup_insert_ne by congruence. by apply Hother.
      * rewrite !deref_assign. exact Httl.
    + split; [| split].
      * intros ref Hne. by apply deref_assign_ne.
      * intros k' Hne. rewrite deref_assign. by apply Hother.
      * by rewrite deref_assign.
Qed.

Lemma withCache_frame_witness :
  deref ProductCacheRef
    (caches (withCache read_counter product7_key None None tt world0).2) =
  deref ProductCacheRef (caches world0).
Proof.
  apply (proj1 (withCache_frame read_counter product7_key None None tt world0)
           ProductCacheRef).
  discriminate.
Defined.

Lemma within_ttl_after_miss_witness :
  within_ttl None (product7_key tt) 5002
    (withCache read_counter product7_key None (Some 5000) tt world0).2 <->
  5002 - (clock world0 + 2) <=
    ttl_or_default (Some 5000) (defaultTTL (deref (target None) (caches world0))).
Proof.
  apply (within_ttl_after_miss read_counter product7_key None (Some 5000) tt world0
           (JNumber 0) 0 2 5002); reflexivity.
Defined.

Lemma Caches_eq (cs cs' : Caches) :
  productCache cs = productCache cs' -> apiCache cs = apiCache cs' -> cs = cs'.
Proof. destruct cs, cs'. cbn. by intros -> ->. Qed.

Lemma fold_evict_fold_evict (keys1 keys2 : list string) (c : MemoryCache) :
  fold_left evict keys1 (fold_left evict keys2 c) =
  fold_left evict keys2 (fold_left evict keys1 c).
Proof.
  apply MemoryCache_eq; [| by rewrite !fold_evict_defaultTTL].
  apply map_eq. intros k. rewrite !fold_evict_lookup.
  by destruct (bool_decide (k ∈ keys1)), (bool_decide (k ∈ keys2)).
Qed.

(** X20. Repeating an invalidation changes nothing, and two invalidations
    give the same caches in either order. *)
Theorem invalidate_order (productId productId' : option string) (cs : Caches) :
  invalidateProductCaches productId (invalidateProductCaches productId cs) =
    invalidateProductCaches productId cs /\
  invalidateProductCaches productId (invalidateProductCaches productId' cs) =
    invalidateProductCaches productId' (invalidateProductCaches productId cs).
Proof.
  split; apply Caches_eq;
    repeat (rewrite ?(proj1 (invalidate_caches _ _)), ?(proj2 (invalidate_caches _ _)));
    try reflexivity.
  - apply MemoryCache_eq; [| by rewrite !fold_evict_defaultTTL].
    apply map_eq. intros k. rewrite !fold_evict_lookup.
    by destruct (bool_decide (k ∈ keysToDelete productId)).
  - apply fold_evict_fold_evict.
Qed.

(** X21. Invalidation forces the next memoized read to recompute: after
    [invalidateProductCaches], a wrapped call on the product cache, or on
    the API cache under one of the deleted keys, invokes the underlying
    function exactly once and settles as that function settles. *)
Theorem invalidate_forces_recompute {S A : Type} (fn : A -> S -> completion * S * Z)
    (keyGenerator : A -> string) (cacheArg : option CacheRef) (ttl : option Z)
    (args : A) (productId : option string) (w : World S) :
  target cacheArg = ProductCacheRef \/ keyGenerator args ∈ keysToDelete productId ->
  let r := withCache fn keyGenerator cacheArg ttl args (invalidate productId w) in
  invocations r.2 = Datatypes.S (invocations w) /\
  r.1 = (fn args (env w)).1.1 /\
  env r.2 = (fn args (env w)).1.2.
Proof.
  intros Hkey r. subst r.
  assert (Hnone : cache (deref (target cacheArg) (caches (invalidate productId w)))
                    !! keyGenerator args = None).
  { unfold invalidate. cbn [caches].
    destruct (invalidate_caches productId (caches w)) as [Hp Ha].
    destruct (target cacheArg) eqn:Htgt; cbn [deref].
    - rewrite Hp. apply lookup_empty.
    - destruct Hkey as [Hkey | Hkey]; [discriminate |].
      rewrite Ha, fold_evict_lookup. by rewrite bool_decide_eq_true_2. }
  assert (Hnn : not_null
            (get (deref (target cacheArg) (caches (invalidate productId w)))
                 (keyGenerator args) (clock (invalidate productId w))).1 = false).
  { by rewrite (get_absent _ _ _ Hnone). }
  rewrite (withCache_miss fn keyGenerator cacheArg ttl args _ Hnn).
  change (env (invalidate productId w)) with (env w).
  destruct (fn args (env w)) as [[res e2] elapsed].
  by destruct res.
Qed.

Lemma invalidate_forces_recompute_witness :
  invocations
    (withCache read_counter product7_key None None tt
       (invalidate (Some "7"%string)
          (withCache read_counter product7_key None None tt world0).2)).2 =
  Datatypes.S (invocations (withCache read_counter product7_key None None tt world0).2).
Proof.
  apply (invalidate_forces_recompute read_counter product7_key None None tt
           (Some "7"%string)
           (withCache read_counter product7_key None None tt world0).2).
  right. apply list_elem_of_In. cbn. right. right. left. reflexivity.
Defined.

End CacheMore.

(** * The error handler *)

Module ErrorHandlerProps.
Import Cache RateLimit ErrorHandler.


(** X22. What a client sees of a rejection: for every call that the limiter
    rejects, the error handler answers with status 429, the code
    [RATE_LIMIT_EXCEEDED] and the limiter's message with its non-negative
    number of seconds, in development and in production alike. *)
Theorem rate_limit_response (config : RateLimitConfig) (request : NextRequest)
    (now : Z) (store : Store) (e : AppError) (isDevelopment : bool) :
  (rateLimit config request now store).1 = Throws e ->
  exists secs,
    0 <= secs /\
    handleApiError isDevelopment (ThrownAppError e JUndefined) =
      Some {| status := 429;
              body := JObject [("success"%string, JBool false);
                               ("error"%string, JString (limit_message secs));
                               ("code"%string, JString "RATE_LIMIT_EXCEEDED")] |}.
Proof.
  intros Hthrow.
  destruct (RateLimitMore.rateLimit_throws_inv config request now store e Hthrow)
    as (entry & _ & Hin & _ & -> & _).
  exists (ceil_div (resetTime entry - now) 1000).
  split; [apply ceil_div_nonneg; lia | reflexivity].
Qed.

Lemma rate_limit_response_witness :
  exists secs,
    0 <= secs /\
    handleApiError false
      (ThrownAppError (RateLimitError "Rate limit exceeded. Try again in 1 seconds.")
         JUndefined) =
      Some {| status := 429;
              body := JObject [("success"%string, JBool false);
                               ("error"%string, JString (limit_message secs));
                               ("code"%string, JString "RATE_LIMIT_EXCEEDED")] |}.
Proof.
  apply (rate_limit_response scenario_config scenario_request 5
           (run scenario_config [(scenario_request, 0); (scenario_request, 1)] ∅).2
           (RateLimitError "Rate limit exceeded. Try again in 1 seconds.") false).
  vm_compute. reflexivity.
Defined.

(** X23. In production nothing of an unexpected error leaks: for whatever
    is thrown that is not an [AppError], the handler answers; the body says
    [success: false] and has no stack; and unless the error is named
    [ValidationError] (status 400 with its message), the status is 500 and the
    text is the fixed ['Internal server error']. *)
Theorem production_hides_unexpected_errors (error : thrown) :
  (forall e details, error <> ThrownAppError e details) ->
  exists r,
    handleApiError false error = Some r /\
    body_field r "success" = Some (JBool false) /\
    body_field r "stack" = None /\
    ((exists msg stack,
        error = ThrownError "ValidationError" msg stack /\
        status r = 400 /\ body_field r "error" = Some (JString msg)) \/
     (status r = 500 /\
      body_field r "error" = Some (JString "Internal server error"))).
Proof.
  intros Hnot. destruct error as [e details | name msg stack | v].
  - by destruct (Hnot e details).
  - cbn [handleApiError]. case_bool_decide as Hname.
    + subst name. eexists. split; [reflexivity |].
      split; [reflexivity |]. split; [reflexivity |]. left. eauto.
    + eexists. split; [reflexivity |].
      split; [reflexivity |]. split; [reflexivity |]. right. done.
  - eexists. split; [reflexivity |].
    split; [reflexivity |]. split; [reflexivity |]. right. done.
Qed.

Lemma production_hides_unexpected_errors_witness :
  exists r,
    handleApiError false (ThrownError "TypeError" "db password rejected" None) = Some r /\
    body_field r "success" = Some (JBool false) /\
    body_field r "stack" = None /\
    ((exists msg stack,
        ThrownError "TypeError" "db password rejected" None =
          ThrownError "ValidationError" msg stack /\
        status r = 400 /\ body_field r "error" = Some (JString msg)) \/
     (status r = 500 /\
      body_field r "error" = Some (JString "Internal server error"))).
Proof.
  apply (production_hides_unexpected_errors
           (ThrownError "TypeError" "db password rejected" None)).
  discriminate.
Defined.



End ErrorHandlerProps.
